(** * komodo-web-deploy: the push-hook admission path and the deployment
      orchestrator of [server.js]

    The server keeps two JavaScript objects, [deploying] and [queued], and
    drives every deployment through callbacks ([fs.exists], [exec], the
    target's [run]).  The development embeds

    - the fragment of JavaScript object behaviour the code relies on
      (own properties in enumeration order, the [in] operator, assignment
      and [delete]), in [Module JS];
    - [deploy] and its two callbacks as functions on an explicit [state],
      with one event per callback the event loop may fire;
    - [routeHookPush] in a small writer/error monad.                      *)

From Stdlib Require Import ZArith NArith Ascii String List Lia.
From stdpp Require Import base option list strings.

Local Open Scope string_scope.
Local Open Scope list_scope.
Set Warnings "-register-all".

(* ===================================================================== *)
(** ** JavaScript values and objects                                      *)
(* ===================================================================== *)

Module JS.

(** Values a parsed JSON document can hold, plus [undefined] for a missing
    property.  A number is kept as the string its conversion to a string
    yields: the server only ever concatenates it. *)
Inductive jsval : Type :=
  | JUndef
  | JNull
  | JBool (b : bool)
  | JNum (repr : string)
  | JStr (s : string)
  | JArr (elems : list jsval)
  | JObj (members : list (string * jsval)).

(** Own properties of an object, in insertion order. *)
Definition props (V : Type) : Type := list (string * V).

Section Props.
Context {V : Type}.

Fixpoint get_own (k : string) (ps : props V) : option V :=
  match ps with
  | [] => None
  | (k', v) :: rest => if String.eqb k k' then Some v else get_own k rest
  end.

Definition has_own (k : string) (ps : props V) : bool :=
  match get_own k ps with Some _ => true | None => false end.

(** [o[k] = v] on an ordinary data property: an existing property keeps
    its place, a new one goes last. *)
Fixpoint set_own (k : string) (v : V) (ps : props V) : props V :=
  match ps with
  | [] => [(k, v)]
  | (k', v') :: rest =>
      if String.eqb k k' then (k', v) :: rest
      else (k', v') :: set_own k v rest
  end.

(** [delete o[k]]. *)
Fixpoint delete_own (k : string) (ps : props V) : props V :=
  match ps with
  | [] => []
  | (k', v') :: rest =>
      if String.eqb k k' then delete_own k rest
      else (k', v') :: delete_own k rest
  end.

Definition keys (ps : props V) : list string := map fst ps.
End Props.

(** [o.k] for a value of a parsed document: only objects have members
    named by the keys the server reads. *)
Definition member (k : string) (v : jsval) : jsval :=
  match v with
  | JObj ms => match get_own k ms with Some x => x | None => JUndef end
  | _ => JUndef
  end.

(** Names every object literal inherits from [Object.prototype]; the [in]
    operator sees them. *)
Definition Object_prototype : list string :=
  [ "constructor"; "toString"; "toLocaleString"; "valueOf";
    "hasOwnProperty"; "isPrototypeOf"; "propertyIsEnumerable";
    "__defineGetter__"; "__defineSetter__";
    "__lookupGetter__"; "__lookupSetter__"; "__proto__" ].

Definition inherited (k : string) : bool :=
  existsb (String.eqb k) Object_prototype.

(** [k in o] for an object literal [o]. *)
Definition has_property {V : Type} (k : string) (o : props V) : bool :=
  has_own k o || inherited k.

(** *** Enumeration order

    [for (k in o)] visits the own keys that are array indices first, in
    ascending numeric order, then the other keys in insertion order. *)

Definition digit (c : ascii) : option N :=
  let n := N_of_ascii c in
  if ((48 <=? n) && (n <=? 57))%N then Some (n - 48)%N else None.

Fixpoint parse_digits (acc : N) (s : string) : option N :=
  match s with
  | EmptyString => Some acc
  | String c rest =>
      match digit c with
      | Some d => parse_digits (10 * acc + d)%N rest
      | None => None
      end
  end.

Definition parse_decimal (s : string) : option N :=
  match s with
  | EmptyString => None
  | _ => parse_digits 0%N s
  end.

(** A key is an array index when it is the canonical decimal form of an
    integer below [2^32 - 1]. *)
Definition array_index (s : string) : option N :=
  match s with
  | String "0"%char EmptyString => Some 0%N
  | String "0"%char _ => None
  | _ =>
      match parse_decimal s with
      | Some n => if (n <? 4294967295)%N then Some n else None
      | None => None
      end
  end.

Section Enumeration.
Context {V : Type}.

Fixpoint least_index (ps : props V) : option (N * (string * V)) :=
  match ps with
  | [] => None
  | (k, v) :: rest =>
      match array_index k, least_index rest with
      | Some n, Some (m, e) =>
          if (n <? m)%N then Some (n, (k, v)) else Some (m, e)
      | Some n, None => Some (n, (k, v))
      | None, o => o
      end
  end.

Fixpoint first_named (ps : props V) : option (string * V) :=
  match ps with
  | [] => None
  | (k, v) :: rest =>
      match array_index k with
      | Some _ => first_named rest
      | None => Some (k, v)
      end
  end.

(** The first own property [for (k in o)] reaches, with its value. *)
Definition first_own (ps : props V) : option (string * V) :=
  match least_index ps with
  | Some (_, e) => Some e
  | None => first_named ps
  end.
End Enumeration.

(** *** Strings and arrays of strings *)

(** [s.split(sep)] for a one-character separator: never empty. *)
Fixpoint split (sep : ascii) (s : string) : list string :=
  match s with
  | EmptyString => [""]
  | String c rest =>
      if Ascii.eqb c sep then "" :: split sep rest
      else
        match split sep rest with
        | piece :: pieces => String c piece :: pieces
        | [] => [String c ""]
        end
  end.

(** [a.slice(-1)]. *)
Definition slice_last {A : Type} (a : list A) : list A :=
  match last a with
  | Some x => [x]
  | None => []
  end.

(** [a.join(sep)] for an array of strings. *)
Fixpoint join (sep : string) (a : list string) : string :=
  match a with
  | [] => ""
  | [x] => x
  | x :: rest => x +:+ sep +:+ join sep rest
  end.

(** [a[0]]. *)
Definition index0 (a : list string) : jsval :=
  match a with
  | x :: _ => JStr x
  | [] => JUndef
  end.

(** Conversion to a string; [None] where it raises a TypeError.  No
    member of a parsed object is callable, so an own [toString] hides the
    inherited method and leaves the conversion nothing that returns a
    primitive. *)
Fixpoint to_string (v : jsval) : option string :=
  match v with
  | JUndef => Some "undefined"
  | JNull => Some "null"
  | JBool true => Some "true"
  | JBool false => Some "false"
  | JNum repr => Some repr
  | JStr s => Some s
  | JArr elems =>
      (fix elements (l : list jsval) : option string :=
         match l with
         | [] => Some ""
         | x :: rest =>
             let piece :=
               match x with
               | JUndef | JNull => Some ""
               | _ => to_string x
               end in
             match piece, rest with
             | Some p, [] => Some p
             | Some p, _ :: _ =>
                 match elements rest with
                 | Some r => Some (p +:+ "," +:+ r)
                 | None => None
                 end
             | None, _ => None
             end
         end) elems
  | JObj ms =>
      if has_own "toString" ms then None else Some "[object Object]"
  end.

(** The piece an element contributes to [Array.prototype.join]. *)
Definition join_piece (v : jsval) : option string :=
  match v with
  | JUndef | JNull => Some ""
  | _ => to_string v
  end.

(** Truthiness of a string: only the empty string is falsy. *)
Definition truthy (s : string) : bool := negb (String.eqb s "").

End JS.

Import JS.

(* ===================================================================== *)
(** ** The orchestrator: [deploying], [queued] and [deploy]               *)
(* ===================================================================== *)

(** The object [routeHookPush] builds and hands to [deploy]. *)
Record deployer : Type := Deployer {
  name : string;
  path : string;
  repository : jsval;
  branch : jsval
}.

(** What [deploy] can be called with.  The drain step reads
    [queued[queuedName]]; when [queuedName] is a key [queued] inherits, the
    value read is a member of the inherited deployer, a string. *)
Inductive value : Type :=
  | VDeployer (d : deployer)
  | VString (s : string).

(** [deployer.name] and [deployer.path] as they appear in property keys and
    string concatenations; a string has neither member. *)
Definition name_of (v : value) : string :=
  match v with VDeployer d => name d | VString _ => "undefined" end.

Definition path_of (v : value) : string :=
  match v with VDeployer d => path d | VString _ => "undefined" end.

(** [queued]: own properties, and the object assigned to
    [queued["__proto__"]], if any.  That assignment runs the setter
    inherited from [Object.prototype]: it creates no own property and
    makes the assigned object the prototype of [queued]. *)
Record queue : Type := Queue {
  q_own : props value;
  q_proto : option deployer
}.

Definition queue_set (k : string) (v : value) (q : queue) : queue :=
  if String.eqb k "__proto__" then
    match v with
    | VDeployer d => Queue (q_own q) (Some d)
    | VString _ => q
    end
  else Queue (set_own k v (q_own q)) (q_proto q).

Definition queue_delete (k : string) (q : queue) : queue :=
  Queue (delete_own k (q_own q)) (q_proto q).

(** [for (var queuedName in queued) break;] followed by
    [queued[queuedName]]: own properties come first; an inherited deployer
    contributes its members, of which [name] is the first. *)
Definition queue_first (q : queue) : option (string * value) :=
  match first_own (q_own q) with
  | Some e => Some e
  | None =>
      match q_proto q with
      | Some d => Some ("name", VString (name d))
      | None => None
      end
  end.

Inductive level : Type := Debug | Info | Warn | Error.

(** Calls that leave the process, in the order they are made. *)
Inductive effect : Type :=
  | Log (l : level) (msg : string)
  | Send (body : string)
  | FsExists (file : string)
  | Exec (cmd : string)
  | RequireFresh (file : string)
  | Init
  | Run (v : value).

(** A callback registered by [deploy] that has not fired yet. *)
Inductive task : Type :=
  | Pulling (v : value)   (* [exec] of the reset and pull *)
  | Running (v : value).  (* [deployerRunner.run] *)

Record state : Type := State {
  githubIpRanges : list string;
  deploying : props bool;
  queued : queue;
  probes : list deployer;   (* [fs.exists] callbacks not fired yet *)
  tasks : list task;
  trace : list effect
}.

Definition initial : state :=
  {| githubIpRanges := ["192.30.252.0/22"];
     deploying := [("active", false)];
     queued := Queue [] None;
     probes := [];
     tasks := [];
     trace := [] |}.

Definition with_ranges (r : list string) (st : state) : state :=
  State r (deploying st) (queued st) (probes st) (tasks st) (trace st).
Definition with_deploying (o : props bool) (st : state) : state :=
  State (githubIpRanges st) o (queued st) (probes st) (tasks st) (trace st).
Definition with_queued (q : queue) (st : state) : state :=
  State (githubIpRanges st) (deploying st) q (probes st) (tasks st) (trace st).
Definition with_probes (ps : list deployer) (st : state) : state :=
  State (githubIpRanges st) (deploying st) (queued st) ps (tasks st) (trace st).
Definition with_tasks (ts : list task) (st : state) : state :=
  State (githubIpRanges st) (deploying st) (queued st) (probes st) ts (trace st).
Definition emit (es : list effect) (st : state) : state :=
  State (githubIpRanges st) (deploying st) (queued st) (probes st) (tasks st)
        (trace st ++ es).

(** [deploying.active]. *)
Definition active (st : state) : bool :=
  match get_own "active" (deploying st) with
  | Some b => b
  | None => false
  end.

Definition dquote : string := String "034"%char "".

Definition pull_command (v : value) : string :=
  "cd " +:+ dquote +:+ path_of v +:+ dquote +:+
  " && git reset --hard HEAD && git pull".

(** [deploy(deployer)], up to the point where it returns to its caller. *)
Definition deploy (v : value) (st : state) : state :=
  if has_property (name_of v) (deploying st) || active st then
    with_queued (queue_set (name_of v) v (queued st))
      (emit [Log Info ("Queueing " +:+ name_of v)] st)
  else
    with_tasks (tasks st ++ [Pulling v])
      (emit [Log Info ("Deploying " +:+ name_of v); Exec (pull_command v)]
        (with_deploying
           (set_own "active" true (set_own (name_of v) true (deploying st)))
           st)).

(** The callback given to [exec], for the pull of [v]; [rest] are the
    callbacks still outstanding.  [err] is [None] for JavaScript's
    [null]. *)
Definition pull_done (v : value) (err : option string) (stdo : string)
    (rest : list task) (st : state) : state :=
  match err with
  | Some e =>
      with_tasks rest
        (emit [Log Debug stdo;
               Log Error ("Git pull error (" +:+ name_of v +:+ "): " +:+ e)]
           st)
  | None =>
      with_tasks (rest ++ [Running v])
        (emit [Log Debug stdo;
               RequireFresh (path_of v +:+ "/deploy.js"); Init; Run v] st)
  end.

(** The callback given to [deployerRunner.run]. *)
Definition run_done (v : value) (err : option string) (rest : list task)
    (st : state) : state :=
  let failed :=
    match err with
    | Some e =>
        if truthy e then
          [Log Error ("Error while deploying " +:+ name_of v +:+ ": " +:+ e)]
        else []
    | None => []
    end in
  let st1 :=
    with_tasks rest
      (emit (failed ++ [Log Info ("Done deploying " +:+ name_of v)])
        (with_deploying
           (set_own "active" false (delete_own (name_of v) (deploying st)))
           st)) in
  match queue_first (queued st1) with
  | Some (queuedName, queuedDeployer) =>
      if truthy queuedName then
        deploy queuedDeployer
          (with_queued (queue_delete queuedName (queued st1))
             (emit [Log Info ("Running queued job: " +:+ queuedName)] st1))
      else st1
  | None => st1
  end.

(** The callback given to [fs.exists] by [routeHookPush]. *)
Definition exists_done (d : deployer) (found : bool) (rest : list deployer)
    (st : state) : state :=
  let st1 :=
    with_probes rest
      (emit [Log Debug (path d +:+ " exists: " +:+
                        (if found then "true" else "false"))] st) in
  if found then deploy (VDeployer d) st1 else st1.

(* ===================================================================== *)
(** ** The push hook                                                      *)
(* ===================================================================== *)

Inductive exn : Type := SyntaxError | TypeError.

(** Effects made so far, and either the exception thrown or the result. *)
Definition M (A : Type) : Type := (list effect * (exn + A))%type.

#[global] Instance M_ret : MRet M := λ A a, ([], inr a).
#[global] Instance M_bind : MBind M := λ A B f m,
  match m with
  | (es, inl e) => (es, inl e)
  | (es, inr a) => let '(es', r) := f a in (es ++ es', r)
  end.

Definition throw {A : Type} (e : exn) : M A := ([], inl e).
Definition tell (es : list effect) : M unit := (es, inr tt).

(** [v.k]: reading a member of [undefined] or [null] throws. *)
Definition get_member (k : string) (v : jsval) : M jsval :=
  match v with
  | JUndef | JNull => throw TypeError
  | _ => mret (member k v)
  end.

(** [v.split("/")]: only a string has a [split] to call. *)
Definition call_split (v : jsval) : M (list string) :=
  match v with
  | JStr s => mret (split "/"%char s)
  | _ => throw TypeError
  end.

Definition lift_string (o : option string) : M string :=
  match o with
  | Some s => mret s
  | None => throw TypeError
  end.

Record request : Type := Request {
  x_forwarded_for : option string;   (* [req.headers['x-forwarded-for']] *)
  remoteAddress : string;            (* [req.connection.remoteAddress] *)
  payload : option string            (* [req.body.payload] *)
}.

Section Server.
(** [range_check.in_range], [JSON.parse] ([None]: it throws a
    SyntaxError) and [__dirname]. *)
Variable in_range : string → string → bool.
Variable JSON_parse : string → option jsval.
Variable dirname : string.

Definition source_ip (req : request) : string :=
  match x_forwarded_for req with
  | Some h => if truthy h then h else remoteAddress req
  | None => remoteAddress req
  end.

(** The loop over [githubIpRanges], from index [x] on: [true] when
    control leaves the loop ([break], or the bound is reached), [false]
    when the body returns from the handler. *)
Fixpoint range_loop (ip : string) (ranges : list string) : bool :=
  match ranges with
  | [] => true
  | r :: rest =>
      if in_range ip r then true
      else
        match rest with
        | [] => false
        | _ :: _ => range_loop ip rest
        end
  end.

Definition parse_payload (req : request) : M jsval :=
  match JSON_parse (default "undefined" (payload req)) with
  | Some v => mret v
  | None => throw SyntaxError
  end.

(** The handler's return from inside the loop. *)
Definition reject_push (ip : string) : M (option deployer) :=
  tell [Log Warn ("Request from non-whitelisted ip: " +:+ ip); Send ""];;
  mret None.

(** The handler from [logger.info("Received push event")] on. *)
Definition dispatch_push (req : request) : M (option deployer) :=
  tell [Log Info "Received push event"];;
  payload ← parse_payload req;
  repository ← get_member "repository" payload;
  repo ← get_member "name" repository;
  ref ← get_member "ref" payload;
  parts ← call_split ref;
  let branch := join "-" (slice_last parts) in
  repo_piece ← lift_string (join_piece repo);
  let deployerName := join "-" [repo_piece; branch] in
  let deployer :=
    {| name := deployerName;
       path := dirname +:+ "/../" +:+ deployerName;
       repository := repo;
       branch := index0 (slice_last parts) |} in
  tell [Log Debug "Deployer data";
        FsExists (path deployer +:+ "/deploy.js");
        Send ""];;
  mret (Some deployer).

(** [routeHookPush(req, res)]: [None] when the handler returns from
    inside the loop, otherwise the deployer whose [deploy.js] is probed
    with [fs.exists]. *)
Definition routeHookPush (ranges : list string) (req : request)
    : M (option deployer) :=
  let ip := source_ip req in
  if range_loop ip ranges then dispatch_push req else reject_push ip.

(** *** The event loop *)

Inductive event : Type :=
  | HookPush (req : request)
      (* a POST to /hooks/push *)
  | MetaHooks (hooks : list string)
      (* the reply of api.github.com/meta, carrying a [hooks] array *)
  | Scheduled (d : deployer)
      (* a target's schedule calls the [deploy] it was given *)
  | ExistsCallback (i : nat) (found : bool)
  | PullCallback (i : nat) (err : option string) (stdo : string)
  | RunCallback (i : nat) (err : option string).

(** One turn of the event loop; [None] when no such callback is
    outstanding. *)
Definition step (st : state) (ev : event) : option state :=
  match ev with
  | HookPush req =>
      let '(es, r) := routeHookPush (githubIpRanges st) req in
      let st1 := emit es st in
      match r with
      | inr (Some d) => Some (with_probes (probes st1 ++ [d]) st1)
      | _ => Some st1
      end
  | MetaHooks hooks => Some (with_ranges hooks st)
  | Scheduled d => Some (deploy (VDeployer d) st)
  | ExistsCallback i found =>
      match probes st !! i with
      | Some d => Some (exists_done d found (delete i (probes st)) st)
      | None => None
      end
  | PullCallback i err stdo =>
      match tasks st !! i with
      | Some (Pulling v) =>
          Some (pull_done v err stdo (delete i (tasks st)) st)
      | _ => None
      end
  | RunCallback i err =>
      match tasks st !! i with
      | Some (Running v) => Some (run_done v err (delete i (tasks st)) st)
      | _ => None
      end
  end.

Fixpoint run_events (st : state) (evs : list event) : option state :=
  match evs with
  | [] => Some st
  | ev :: rest =>
      match step st ev with
      | Some st' => run_events st' rest
      | None => None
      end
  end.

Definition reachable (st : state) : Prop :=
  ∃ evs, run_events initial evs = Some st.
End Server.

(** Modelled from the spec: [range_check.in_range] is a dependency that is
    not part of the repository; the spec has it decide whether an address
    lies in a CIDR range.  Addresses are dotted quads read as 32-bit
    integers, and [a.b.c.d/n] holds the addresses that agree with
    [a.b.c.d] on the leading [n] bits. *)
Definition octet (s : string) : option Z :=
  match parse_decimal s with
  | Some n => if (n <=? 255)%N then Some (Z.of_N n) else None
  | None => None
  end.

Definition ipv4 (s : string) : option Z :=
  match map octet (split "."%char s) with
  | [Some a; Some b; Some c; Some d] =>
      Some (Z.lor (Z.shiftl a 24)
             (Z.lor (Z.shiftl b 16) (Z.lor (Z.shiftl c 8) d)))
  | _ => None
  end.

Definition cidr_in_range (ip range : string) : bool :=
  match split "/"%char range with
  | [base; bits] =>
      match ipv4 ip, ipv4 base, parse_decimal bits with
      | Some a, Some b, Some n =>
          (n <=? 32)%N &&
          (Z.shiftr a (32 - Z.of_N n) =? Z.shiftr b (32 - Z.of_N n))%Z
      | _, _, _ => false
      end
  | [single] =>
      match ipv4 ip, ipv4 single with
      | Some a, Some b => (a =? b)%Z
      | _, _ => false
      end
  | _ => false
  end.

(* ===================================================================== *)
(** ** Start-up: the allow-list reply and the schedulers                  *)
(* ===================================================================== *)

(** Truthiness of a parsed value. *)
Definition js_truthy (v : jsval) : bool :=
  match v with
  | JUndef | JNull => false
  | JBool b => b
  | JNum repr => negb (String.eqb repr "0" || String.eqb repr "NaN")
  | JStr s => truthy s
  | JArr _ | JObj _ => true
  end.

(** What the callback of the request to api.github.com/meta does to
    [githubIpRanges]: leaves it (after the effects given), throws, or
    assigns it the [hooks] member of the reply. *)
Inductive meta_outcome : Type :=
  | MetaKeeps (es : list effect)
  | MetaThrows (e : exn)
  | MetaReplaces (hooks : jsval).

(** The callback given to [request] in [init].  [error] is [None] for a
    falsy first argument; ["hooks" in bodyParsed] throws on a primitive. *)
Definition meta_callback (JSON_parse : string → option jsval)
    (error : option string) (body : string) : meta_outcome :=
  match error with
  | Some e => MetaKeeps [Log Error ("Error retrieving github meta: " +:+ e)]
  | None =>
      match JSON_parse body with
      | None => MetaThrows SyntaxError
      | Some bodyParsed =>
          if js_truthy bodyParsed then
            match bodyParsed with
            | JObj ms =>
                if has_property "hooks" ms
                then MetaReplaces (member "hooks" bodyParsed)
                else MetaKeeps []
            | JArr _ => MetaKeeps []
            | _ => MetaThrows TypeError
            end
          else MetaKeeps []
      end
  end.

(** [\s] of a regular expression, on characters below 256. *)
Definition is_space (c : ascii) : bool :=
  let n := N_of_ascii c in
  (((9 <=? n) && (n <=? 13)) || (n =? 32) || (n =? 160))%N.

(** [stdo.replace(/\s/g, '')]. *)
Fixpoint strip_space (s : string) : string :=
  match s with
  | EmptyString => EmptyString
  | String c rest =>
      if is_space c then strip_space rest else String c (strip_space rest)
  end.

(** The callback given to [exec] in [bindSchedulers] for the target at
    [path]: the effects, and the branch handed to the target's
    [schedule], if it is called. *)
Definition branch_callback (path : string) (err : option string)
    (stdo : string) : list effect * option string :=
  match err with
  | Some _ => ([], None)
  | None =>
      ([Log Debug ("Running scheduler for " +:+ path)],
       Some (strip_space stdo))
  end.

(** [file[0] == '.']. *)
Definition hidden (file : string) : bool :=
  match file with
  | String c _ => Ascii.eqb c "."%char
  | EmptyString => false
  end.

Definition branch_command (path : string) : string :=
  "cd " +:+ dquote +:+ path +:+ dquote +:+
  " && git rev-parse --abbrev-ref HEAD".

(** What the loop gets from a [deploy.js]: [requireFresh] throws; or the
    module's export is not an object, so that ["schedule" in
    deployerRunner] throws; or the export is an object with a [schedule]
    member or without one; [Exports true] stands for a member [schedule]
    and a call of [init] that returns, [InitThrows] for a member
    [schedule] and a call of [init] that throws (a missing [init]
    included). *)
Inductive loaded : Type :=
  | LoadThrows
  | ExportsPrimitive
  | Exports (schedule : bool)
  | InitThrows.

Section Schedulers.
(** [fs.existsSync], [requireFresh] and [__dirname]. *)
Variable existsSync : string → bool.
Variable requireFresh : string → loaded.
Variable dirname : string.

Definition target_path (file : string) : string :=
  dirname +:+ "/../" +:+ file.

(** [bindSchedulers], over the listing of the parent directory: the
    effects in order, and whether the loop reached its end ([false]: an
    exception ended it). *)
Fixpoint bindSchedulers (files : list string) : list effect * bool :=
  match files with
  | [] => ([], true)
  | file :: rest =>
      if hidden file then bindSchedulers rest
      else
        let path := target_path file in
        if negb (existsSync (path +:+ "/deploy.js")) then bindSchedulers rest
        else
          match requireFresh (path +:+ "/deploy.js") with
          | LoadThrows => ([RequireFresh (path +:+ "/deploy.js")], false)
          | ExportsPrimitive =>
              ([RequireFresh (path +:+ "/deploy.js")], false)
          | InitThrows =>
              ([RequireFresh (path +:+ "/deploy.js"); Init], false)
          | Exports false =>
              let '(es, ended) := bindSchedulers rest in
              (RequireFresh (path +:+ "/deploy.js") :: es, ended)
          | Exports true =>
              let '(es, ended) := bindSchedulers rest in
              (RequireFresh (path +:+ "/deploy.js") :: Init
                 :: Exec (branch_command path) :: es, ended)
          end
  end.

(** A directory entry whose branch is queried. *)
Definition schedulable (file : string) : bool :=
  negb (hidden file)
  && existsSync (target_path file +:+ "/deploy.js")
  && match requireFresh (target_path file +:+ "/deploy.js") with
     | Exports true => true
     | _ => false
     end.
End Schedulers.

(** ** Vocabulary of the statements *)

(** The values handed to [run], in order. *)
Definition runs (es : list effect) : list value :=
  omap (λ e, match e with Run v => Some v | _ => None end) es.

(** A name that is non-empty and that [deploying] does not answer [in]
    for before any deployment: not [active], not an inherited name. *)
Definition plain_name (k : string) : bool :=
  truthy k && negb (has_property k (deploying initial)).

Definition has_dash (s : string) : bool :=
  existsb (Ascii.eqb "-"%char) (list_ascii_of_string s).

Definition has_slash (s : string) : bool :=
  existsb (Ascii.eqb "/"%char) (list_ascii_of_string s).

(** *** Payloads *)

Definition nullish (v : jsval) : bool :=
  match v with JUndef | JNull => true | _ => false end.

Definition is_string (v : jsval) : bool :=
  match v with JStr _ => true | _ => false end.

(** A parsed payload the handler cannot read a repository name and a ref
    from: [repository] or the payload itself is [null] or missing, [ref]
    is not a string, or the repository name does not convert to a
    string. *)
Definition malformed (pv : jsval) : bool :=
  nullish pv
  || nullish (member "repository" pv)
  || negb (is_string (member "ref" pv))
  || match join_piece (member "name" (member "repository" pv)) with
     | Some _ => false
     | None => true
     end.

(** The last segment of a ref, as the handler computes it for the
    deployer's name. *)
Definition slug (ref : string) : string :=
  join "-" (slice_last (split "/"%char ref)).

(** The deployers whose pull is outstanding. *)
Definition pulls (ts : list task) : list value :=
  omap (λ t, match t with Pulling v => Some v | Running _ => None end) ts.

(** *** Invariants *)

(** No callback of a deployment is outstanding, or exactly one is and the
    lock is held. *)
Definition single_flight (st : state) : Prop :=
  tasks st = [] ∨ ∃ t, tasks st = [t] ∧ active st = true.

(** [queued] has one own property per key, none of them [__proto__]. *)
Definition keyed_once (q : queue) : Prop :=
  NoDup (keys (q_own q)) ∧ "__proto__" ∉ keys (q_own q).

(** The lock is held and no callback is left to release it. *)
Definition wedged (held : string) (ran : list value) (st : state) : Prop :=
  tasks st = [] ∧ active st = true ∧
  has_own held (deploying st) = true ∧ runs (trace st) = ran.

(** An own property of [queued] as [deploy] stores it under a plain
    name. *)
Definition plain_entry (e : string * value) : Prop :=
  ∃ d, e = (name d, VDeployer d) ∧ plain_name (name d) = true.

Definition plain_queue (q : queue) : Prop :=
  q_proto q = None ∧ NoDup (keys (q_own q)) ∧ Forall plain_entry (q_own q).

(** The callbacks outstanding while [n] holds the lock. *)
Definition held_by (n : string) (ts : list task) : Prop :=
  ts = [] ∨
  ∃ d, name d = n ∧
       (ts = [Pulling (VDeployer d)] ∨ ts = [Running (VDeployer d)]).

(** The shape of every state reached through plain names: idle with
    nothing queued, or locked by one plain name. *)
Definition orderly (st : state) : Prop :=
  plain_queue (queued st) ∧
  Forall (λ d, plain_name (name d) = true) (probes st) ∧
  ((deploying st = [("active", false)] ∧ tasks st = [] ∧
    q_own (queued st) = [])
   ∨
   (∃ n, plain_name n = true ∧
         deploying st = [("active", true); (n, true)] ∧
         held_by n (tasks st))).

(** The only names that reach [deploy] are plain: those a schedule passes
    in are, and those the hook builds always are. *)
Definition plain_event (ev : event) : bool :=
  match ev with
  | Scheduled d => plain_name (name d)
  | _ => true
  end.

(** The names of the data model: a repository, a dash and a branch
    segment.  The hook builds no other; this asks the same of the names a
    schedule passes in. *)
Definition modelled_event (ev : event) : bool :=
  match ev with
  | Scheduled d => has_dash (name d)
  | _ => true
  end.

(** The callback of a pull firing with an error. *)
Definition pull_failed (ev : event) : bool :=
  match ev with
  | PullCallback _ (Some _) _ => true
  | _ => false
  end.

(** The lock is held only while a callback is outstanding. *)
Definition released (st : state) : Prop :=
  tasks st = [] → active st = false.

(** Every later deployment pulls without error and its run reports
    [errs]. *)
Fixpoint completions (errs : list (option string)) : list event :=
  match errs with
  | [] => []
  | e :: rest =>
      PullCallback 0 None "" :: RunCallback 0 e :: completions rest
  end.


(** *** Start-up and control state *)

(** The commands handed to [exec], in order. *)
Definition commands (es : list effect) : list string :=
  omap (λ e, match e with Exec cmd => Some cmd | _ => None end) es.

(** The files handed to [requireFresh], in order. *)
Definition loads (es : list effect) : list string :=
  omap (λ e, match e with RequireFresh f => Some f | _ => None end) es.

(** An allow-list the handler's loop is modelled for: an array of
    strings. *)
Definition as_ranges (v : jsval) : option (list string) :=
  match v with
  | JArr elems =>
      mapM (λ x, match x with JStr s => Some s | _ => None end) elems
  | _ => None
  end.

(** Two states that differ at most in their traces. *)
Definition same_control (st st' : state) : Prop :=
  githubIpRanges st = githubIpRanges st' ∧ deploying st = deploying st' ∧
  queued st = queued st' ∧ probes st = probes st' ∧ tasks st = tasks st'.

Definition no_space (s : string) : bool :=
  forallb (λ c, negb (is_space c)) (list_ascii_of_string s).

Definition all_space (s : string) : bool :=
  forallb is_space (list_ascii_of_string s).

(** Every call of [run] in a trace comes right after the fresh load and
    the [init] of the [deploy.js] of the deployer it is given. *)
Definition loaded_before_run (es : list effect) : Prop :=
  ∀ before v after,
    es = before ++ Run v :: after →
    ∃ before',
      before = before' ++ [RequireFresh (path_of v +:+ "/deploy.js"); Init].

(** *** Sample inputs *)

(** A target as a schedule or the hook would describe it. *)
Definition target (n : string) : deployer :=
  {| name := n; path := "/srv/" +:+ n;
     repository := JStr "app"; branch := JStr "main" |}.

(** The parsed payload of a push of branch [feature/x] of [app]. *)
Definition push_payload : jsval :=
  JObj [("ref", JStr "refs/heads/feature/x");
        ("repository", JObj [("name", JStr "app")])].

Definition parses_to_push : string → option jsval := λ _, Some push_payload.
Definition parses_nothing : string → option jsval := λ _, None.

Definition push_from (ip : string) : request :=
  {| x_forwarded_for := None; remoteAddress := ip;
     payload := Some "payload" |}.

(** The server installed in [/srv/deploy], with the CIDR check, fed
    payloads that do not parse. *)
Definition sample_run : state → list event → option state :=
  run_events cidr_in_range parses_nothing "/srv/deploy".

Definition sample_step : state → event → option state :=
  step cidr_in_range parses_nothing "/srv/deploy".

(** The same server fed the payload above. *)
Definition sample_hook : list string → request → M (option deployer) :=
  routeHookPush cidr_in_range parses_to_push "/srv/deploy".

(** A parent directory with two targets and a hidden directory; only
    [app-main] exports [schedule]. *)
Definition sample_exists (file : string) : bool :=
  String.eqb file "/srv/deploy/../app-main/deploy.js"
  || String.eqb file "/srv/deploy/../lib-dev/deploy.js"
  || String.eqb file "/srv/deploy/../.git/deploy.js".

Definition sample_load (file : string) : loaded :=
  Exports (String.eqb file "/srv/deploy/../app-main/deploy.js").

(** The same directory when the [deploy.js] of [lib-dev] does not load. *)
Definition broken_load (file : string) : loaded :=
  if String.eqb file "/srv/deploy/../lib-dev/deploy.js" then LoadThrows
  else sample_load file.

(* ===================================================================== *)
(** ** Own properties: reading after writing                              *)
(* ===================================================================== *)

Section PropsFacts.
Context {V : Type}.
Implicit Types (k : string) (v : V) (ps : props V).

Lemma get_set_own k v ps : get_own k (set_own k v ps) = Some v.
Proof.
  induction ps as [|[k' v'] ps IH]; simpl.
  - now rewrite String.eqb_refl.
  - destruct (String.eqb k k') eqn:E; simpl; rewrite E; [done | apply IH].
Qed.

Lemma get_set_own_ne k k' v ps :
  k ≠ k' → get_own k (set_own k' v ps) = get_own k ps.
Proof.
  intros Hne. apply String.eqb_neq in Hne.
  induction ps as [|[k2 v2] ps IH]; simpl.
  - now rewrite Hne.
  - destruct (String.eqb k' k2) eqn:E; simpl.
    + apply String.eqb_eq in E. subst k2. now rewrite Hne.
    + now rewrite IH.
Qed.

Lemma get_delete_own k ps : get_own k (delete_own k ps) = None.
Proof.
  induction ps as [|[k' v'] ps IH]; simpl; [done|].
  destruct (String.eqb k k') eqn:E; simpl; [apply IH | now rewrite E].
Qed.

Lemma get_delete_own_ne k k' ps :
  k ≠ k' → get_own k (delete_own k' ps) = get_own k ps.
Proof.
  intros Hne.
  induction ps as [|[k2 v2] ps IH]; simpl; [done|].
  destruct (String.eqb k' k2) eqn:E; simpl.
  - apply String.eqb_eq in E. subst k2.
    apply String.eqb_neq in Hne. now rewrite Hne.
  - now rewrite IH.
Qed.

Lemma get_own_elem k v ps : get_own k ps = Some v → (k, v) ∈ ps.
Proof.
  induction ps as [|[k' v'] ps IH]; simpl; [done|].
  destruct (String.eqb k k') eqn:E.
  - apply String.eqb_eq in E. intros [= ->]. subst. left.
  - intros H. right. now apply IH.
Qed.

Lemma has_own_keys k ps : has_own k ps = true ↔ k ∈ keys ps.
Proof.
  unfold has_own, keys.
  induction ps as [|[k' v'] ps IH]; simpl.
  - split; [done | intros H; inversion H].
  - destruct (String.eqb k k') eqn:E.
    + apply String.eqb_eq in E. subst. split; [left | done].
    + apply String.eqb_neq in E. rewrite IH. split.
      * now right.
      * intros H. apply elem_of_cons in H as [H|H]; [done | exact H].
Qed.

(** Assigning to a property the object has keeps the key list. *)
Lemma keys_set_own_present k v ps :
  has_own k ps = true → keys (set_own k v ps) = keys ps.
Proof.
  unfold has_own, keys.
  induction ps as [|[k' v'] ps IH]; simpl; [done|].
  destruct (String.eqb k k') eqn:E; simpl; [done|].
  intros H. now rewrite IH.
Qed.

Lemma keys_set_own_absent k v ps :
  has_own k ps = false → keys (set_own k v ps) = keys ps ++ [k].
Proof.
  unfold has_own, keys.
  induction ps as [|[k' v'] ps IH]; simpl; [done|].
  destruct (String.eqb k k') eqn:E; simpl; [done|].
  intros H. now rewrite IH.
Qed.

Lemma NoDup_keys_set_own k v ps :
  NoDup (keys ps) → NoDup (keys (set_own k v ps)).
Proof.
  intros Hnd. destruct (has_own k ps) eqn:E.
  - now rewrite keys_set_own_present.
  - rewrite keys_set_own_absent by done.
    apply NoDup_app. split; [done|]. split; [|apply NoDup_singleton].
    intros x Hx Hk. apply list_elem_of_singleton in Hk. subst x.
    apply has_own_keys in Hx. congruence.
Qed.

Lemma elem_of_delete_own k e ps : e ∈ delete_own k ps → e ∈ ps ∧ e.1 ≠ k.
Proof.
  induction ps as [|[k' v'] ps IH]; simpl; [intros H; inversion H|].
  destruct (String.eqb k k') eqn:E.
  - intros H. destruct (IH H). split; [now right | done].
  - intros H. apply elem_of_cons in H as [->|H].
    + split; [left|]. simpl. apply String.eqb_neq in E. congruence.
    + destruct (IH H). split; [now right | done].
Qed.

Lemma NoDup_keys_delete_own k ps :
  NoDup (keys ps) → NoDup (keys (delete_own k ps)).
Proof.
  unfold keys.
  induction ps as [|[k' v'] ps IH]; simpl; [done|].
  intros Hnd. apply NoDup_cons in Hnd as [Hk Hnd].
  destruct (String.eqb k k'); [now apply IH|].
  simpl. apply NoDup_cons. split; [|now apply IH].
  intros Hin. apply Hk.
  apply list_elem_of_fmap in Hin as ([k2 v2] & -> & Hin).
  apply elem_of_delete_own in Hin as [Hin _].
  apply list_elem_of_fmap. now exists (k2, v2).
Qed.

Lemma has_own_set_own k k' v ps :
  has_own k ps = true → has_own k (set_own k' v ps) = true.
Proof.
  unfold has_own. destruct (String.eqb_spec k k') as [->|Hne].
  - now rewrite get_set_own.
  - now rewrite get_set_own_ne.
Qed.

Lemma keys_delete_own_absent k ps : k ∉ keys (delete_own k ps).
Proof.
  intros H. apply has_own_keys in H. unfold has_own in H.
  now rewrite get_delete_own in H.
Qed.
End PropsFacts.

(* ===================================================================== *)
(** ** What one call of [deploy] does                                     *)
(* ===================================================================== *)

(** Either branch of [deploy], as equations on the fields. *)
Lemma deploy_queues v st :
  has_property (name_of v) (deploying st) || active st = true →
  deploy v st =
    with_queued (queue_set (name_of v) v (queued st))
      (emit [Log Info ("Queueing " +:+ name_of v)] st).
Proof. unfold deploy. now intros ->. Qed.

Lemma deploy_starts v st :
  has_property (name_of v) (deploying st) || active st = false →
  deploy v st =
    with_tasks (tasks st ++ [Pulling v])
      (emit [Log Info ("Deploying " +:+ name_of v); Exec (pull_command v)]
        (with_deploying
           (set_own "active" true (set_own (name_of v) true (deploying st)))
           st)).
Proof. unfold deploy. now intros ->. Qed.

Lemma active_set_true o st :
  active (with_deploying (set_own "active" true o) st) = true.
Proof. unfold active. simpl. now rewrite get_set_own. Qed.

Lemma active_set_false o st :
  active (with_deploying (set_own "active" false o) st) = false.
Proof. unfold active. simpl. now rewrite get_set_own. Qed.

(** A call that registers a callback found the lock free and took it. *)
Lemma deploy_cases v st :
  (tasks (deploy v st) = tasks st ∧
   deploying (deploy v st) = deploying st ∧
   runs (trace (deploy v st)) = runs (trace st))
  ∨
  (active st = false ∧
   has_property (name_of v) (deploying st) = false ∧
   active (deploy v st) = true ∧
   tasks (deploy v st) = tasks st ++ [Pulling v] ∧
   queued (deploy v st) = queued st ∧
   runs (trace (deploy v st)) = runs (trace st) ∧
   deploying (deploy v st)
     = set_own "active" true (set_own (name_of v) true (deploying st))).
Proof.
  destruct (has_property (name_of v) (deploying st) || active st) eqn:E.
  - left. rewrite deploy_queues by done. simpl. split_and!; try done.
    unfold runs. rewrite omap_app. simpl. apply app_nil_r.
  - right. rewrite deploy_starts by done.
    apply orb_false_iff in E as [E1 E2]. split_and!; try done.
    + unfold active. simpl. now rewrite get_set_own.
    + simpl. unfold runs. rewrite omap_app. simpl. apply app_nil_r.
Qed.

(** ** The single-flight invariant *)

Lemma single_flight_deploy v st :
  single_flight st → single_flight (deploy v st).
Proof.
  intros Hsf.
  destruct (deploy_cases v st) as [(Ht & Hd & _) | (Ha & _ & Ha' & Ht & _)].
  - unfold single_flight, active in *. now rewrite Ht, Hd.
  - destruct Hsf as [Hnil | (t & _ & Hact)]; [|congruence].
    right. exists (Pulling v). rewrite Ht, Hnil. done.
Qed.

Lemma single_flight_lookup st i t :
  single_flight st → tasks st !! i = Some t →
  tasks st = [t] ∧ delete i (tasks st) = [] ∧ active st = true.
Proof.
  intros [Hnil | (t' & Ht & Hact)] Hi.
  - rewrite Hnil in Hi. done.
  - rewrite Ht in *. destruct i as [|i]; simpl in Hi; [|done].
    injection Hi as ->. done.
Qed.

Section Orchestrator.
Variable in_range : string → string → bool.
Variable JSON_parse : string → option jsval.
Variable dirname : string.

Abbreviation step := (step in_range JSON_parse dirname).
Abbreviation run_events := (run_events in_range JSON_parse dirname).
Abbreviation routeHookPush :=
  (routeHookPush in_range JSON_parse dirname).

(** The hook touches nothing but the trace and the pending probes. *)
Lemma step_hook_fields st req st' :
  step st (HookPush req) = Some st' →
  deploying st' = deploying st ∧ queued st' = queued st ∧
  tasks st' = tasks st ∧ githubIpRanges st' = githubIpRanges st.
Proof.
  simpl. destruct (routeHookPush _ _) as [es [e|[d|]]];
    intros [= <-]; done.
Qed.

Lemma single_flight_step st ev st' :
  single_flight st → step st ev = Some st' → single_flight st'.
Proof.
  intros Hsf Hstep. destruct ev as [req|hooks|d|i found|i err stdo|i err].
  - apply step_hook_fields in Hstep as (Hd & _ & Ht & _).
    unfold single_flight, active in *. now rewrite Hd, Ht.
  - injection Hstep as <-. exact Hsf.
  - injection Hstep as <-. now apply single_flight_deploy.
  - simpl in Hstep. destruct (probes st !! i) as [d|]; [|done].
    injection Hstep as <-. unfold exists_done.
    destruct found; [apply single_flight_deploy|]; exact Hsf.
  - simpl in Hstep. destruct (tasks st !! i) as [[v|v]|] eqn:Hi; try done.
    injection Hstep as <-.
    destruct (single_flight_lookup _ _ _ Hsf Hi) as (_ & Hdel & Hact).
    rewrite Hdel. destruct err as [e|]; simpl.
    + now left.
    + right. exists (Running v). done.
  - simpl in Hstep. destruct (tasks st !! i) as [[v|v]|] eqn:Hi; try done.
    injection Hstep as <-.
    destruct (single_flight_lookup _ _ _ Hsf Hi) as (_ & Hdel & _).
    rewrite Hdel. unfold run_done.
    match goal with
    | |- context [queue_first ?q] => destruct (queue_first q) as [[k qv]|]
    end; [destruct (truthy k)|]; try (now left).
    apply single_flight_deploy. now left.
Qed.

Lemma single_flight_run evs : ∀ st st',
  single_flight st → run_events st evs = Some st' → single_flight st'.
Proof.
  induction evs as [|ev evs IH]; simpl; intros st st' Hsf Hrun.
  - now injection Hrun as <-.
  - destruct (step st ev) as [st1|] eqn:Hstep; [|done].
    eapply IH; [|exact Hrun]. eapply single_flight_step; eauto.
Qed.

(** C1.  In every state the server reaches, whatever the hooks,
    schedules and callbacks that led there, at most one deployment has a
    pull or a run outstanding; and a call of [deploy] in such a state
    either starts nothing, or it found [deploying.active] false with
    nothing outstanding, set it to true, and its pull is the only
    callback outstanding. *)
Theorem at_most_one_deployment (evs : list event) (st : state) :
  run_events initial evs = Some st →
  (length (tasks st) ≤ 1)%nat ∧
  ∀ v, tasks (deploy v st) = tasks st ∨
       (active st = false ∧ tasks st = [] ∧
        active (deploy v st) = true ∧ tasks (deploy v st) = [Pulling v]).
Proof.
  intros Hrun.
  assert (Hsf : single_flight st).
  { eapply single_flight_run; [|exact Hrun]. now left. }
  split.
  - destruct Hsf as [-> | (t & -> & _)]; simpl; lia.
  - intros v.
    destruct (deploy_cases v st) as [(Ht & _) | (Ha & _ & Ha' & Ht & _)].
    + now left.
    + right. destruct Hsf as [Hnil | (t & _ & Hact)]; [|congruence].
      rewrite Ht, Hnil. done.
Qed.

(* ===================================================================== *)
(** ** The queue keeps one entry per name                                 *)
(* ===================================================================== *)

Lemma keyed_once_set k v q : keyed_once q → keyed_once (queue_set k v q).
Proof.
  intros [Hnd Hp]. unfold queue_set.
  destruct (String.eqb k "__proto__") eqn:E.
  - destruct v; done.
  - apply String.eqb_neq in E. split; simpl.
    + now apply NoDup_keys_set_own.
    + destruct (has_own k (q_own q)) eqn:Hk.
      * now rewrite keys_set_own_present.
      * rewrite keys_set_own_absent by done.
        intros Hin. apply elem_of_app in Hin as [Hin|Hin]; [done|].
        apply list_elem_of_singleton in Hin. congruence.
Qed.

Lemma keyed_once_delete k q : keyed_once q → keyed_once (queue_delete k q).
Proof.
  intros [Hnd Hp]. split; simpl.
  - now apply NoDup_keys_delete_own.
  - intros Hin. apply Hp.
    apply list_elem_of_fmap in Hin as ([k2 v2] & -> & Hin).
    apply elem_of_delete_own in Hin as [Hin _].
    apply list_elem_of_fmap. now exists (k2, v2).
Qed.

Lemma keyed_once_deploy v st :
  keyed_once (queued st) → keyed_once (queued (deploy v st)).
Proof.
  intros Hq. unfold deploy.
  destruct (has_property _ _ || active st); simpl; [|done].
  now apply keyed_once_set.
Qed.

Lemma keyed_once_step st ev st' :
  keyed_once (queued st) → step st ev = Some st' → keyed_once (queued st').
Proof.
  intros Hq Hstep. destruct ev as [req|hooks|d|i found|i err stdo|i err].
  - apply step_hook_fields in Hstep as (_ & -> & _). exact Hq.
  - injection Hstep as <-. exact Hq.
  - injection Hstep as <-. now apply keyed_once_deploy.
  - simpl in Hstep. destruct (probes st !! i) as [d|]; [|done].
    injection Hstep as <-. unfold exists_done.
    destruct found; [apply keyed_once_deploy|]; exact Hq.
  - simpl in Hstep. destruct (tasks st !! i) as [[v|v]|]; try done.
    injection Hstep as <-. destruct err; exact Hq.
  - simpl in Hstep. destruct (tasks st !! i) as [[v|v]|]; try done.
    injection Hstep as <-. unfold run_done.
    match goal with
    | |- context [queue_first ?q] => destruct (queue_first q) as [[k qv]|]
    end; [destruct (truthy k)|]; try exact Hq.
    apply keyed_once_deploy. simpl. now apply keyed_once_delete.
Qed.

Lemma keyed_once_run evs : ∀ st st',
  keyed_once (queued st) → run_events st evs = Some st' →
  keyed_once (queued st').
Proof.
  induction evs as [|ev evs IH]; simpl; intros st st' Hq Hrun.
  - now injection Hrun as <-.
  - destruct (step st ev) as [st1|] eqn:Hstep; [|done].
    eapply IH; [|exact Hrun]. eapply keyed_once_step; eauto.
Qed.

(** C5.  In a state the server has reached with [deploying.active] true
    and a request queued under a name, [deploy] called again with that
    name stores the new deployer in the existing entry: the keys of
    [queued] are unchanged (so is their number), no key occurs twice, the
    entry now holds the deployer submitted last, and nothing is started. *)
Theorem resubmission_replaces (evs : list event) (st : state) (d : deployer) :
  run_events initial evs = Some st →
  active st = true →
  has_own (name d) (q_own (queued st)) = true →
  keys (q_own (queued (deploy (VDeployer d) st))) = keys (q_own (queued st)) ∧
  NoDup (keys (q_own (queued (deploy (VDeployer d) st)))) ∧
  get_own (name d) (q_own (queued (deploy (VDeployer d) st)))
    = Some (VDeployer d) ∧
  tasks (deploy (VDeployer d) st) = tasks st.
Proof.
  intros Hrun Hact Hq.
  assert (Hk : keyed_once (queued st)).
  { eapply keyed_once_run; [|exact Hrun]. split; [constructor | inversion 1]. }
  destruct Hk as [Hnd Hp].
  assert (Hne : String.eqb (name d) "__proto__" = false).
  { apply String.eqb_neq. intros Heq. apply Hp. rewrite <- Heq.
    now apply has_own_keys. }
  rewrite deploy_queues by (simpl; rewrite Hact; apply orb_true_r).
  simpl. unfold queue_set. simpl. rewrite Hne. simpl.
  rewrite keys_set_own_present by done.
  split_and!; try done. apply get_set_own.
Qed.

(* ===================================================================== *)
(** ** A failed pull                                                      *)
(* ===================================================================== *)

Lemma runs_app es es' : runs (es ++ es') = runs es ++ runs es'.
Proof. apply omap_app. Qed.

(** C6.  When the callback of [exec] fires with an error for a pull that
    is outstanding, it logs and returns: the effects it adds are the two
    log lines, no [requireFresh], [init] or [run] among them, and the
    deployment leaves the outstanding callbacks without a run having been
    registered for it. *)
Theorem failed_pull_skips_run (st : state) (i : nat) (v : value)
    (e stdo : string) :
  tasks st !! i = Some (Pulling v) →
  ∃ st', step st (PullCallback i (Some e) stdo) = Some st' ∧
    trace st' =
      trace st ++
      [Log Debug stdo;
       Log Error ("Git pull error (" +:+ name_of v +:+ "): " +:+ e)] ∧
    runs (trace st') = runs (trace st) ∧
    tasks st' = delete i (tasks st).
Proof.
  intros Hi. eexists. simpl. rewrite Hi. split; [reflexivity|].
  simpl. split_and!; try done.
  rewrite runs_app. simpl. apply app_nil_r.
Qed.

(* ===================================================================== *)
(** ** The push hook, case by case                                        *)
(* ===================================================================== *)

Lemma split_nonempty sep s : split sep s ≠ [].
Proof.
  destruct s as [|c s]; simpl; [done|].
  destruct (Ascii.eqb c sep); [done|]. now destruct (split sep s).
Qed.

Lemma slice_last_split sep s : ∃ x, slice_last (split sep s) = [x].
Proof.
  unfold slice_last. destruct (last (split sep s)) as [x|] eqn:E; [eauto|].
  apply last_None in E. now apply split_nonempty in E.
Qed.

Lemma has_dash_app a b : has_dash (a +:+ "-" +:+ b) = true.
Proof. induction a as [|c a IH]; simpl; [done|]. unfold has_dash in *. simpl.
  rewrite IH. apply orb_true_r. Qed.

Lemma plain_of_dash k : has_dash k = true → plain_name k = true.
Proof.
  intros Hd. unfold plain_name, truthy, has_property, has_own, inherited.
  simpl.
  repeat match goal with
  | |- context [String.eqb k ?x] =>
      destruct (String.eqb_spec k x) as [->|_];
        [vm_compute in Hd; discriminate Hd|]
  end.
  reflexivity.
Qed.

Lemma get_member_eq k v :
  get_member k v = if nullish v then throw TypeError else mret (member k v).
Proof. now destruct v. Qed.

(** What the handler does once the address is admitted, by the shape of
    the payload. *)
Lemma dispatch_push_spec req :
  match JSON_parse (default "undefined" (payload req)) with
  | None =>
      dispatch_push JSON_parse dirname req
      = ([Log Info "Received push event"], inl SyntaxError)
  | Some pv =>
      if malformed pv then
        dispatch_push JSON_parse dirname req
        = ([Log Info "Received push event"], inl TypeError)
      else
        ∃ ref piece,
          member "ref" pv = JStr ref ∧
          join_piece (member "name" (member "repository" pv)) = Some piece ∧
          dispatch_push JSON_parse dirname req
          = ([Log Info "Received push event"; Log Debug "Deployer data";
              FsExists ((dirname +:+ "/../" +:+ piece +:+ "-" +:+ slug ref)
                        +:+ "/deploy.js");
              Send ""],
             inr (Some
               {| name := piece +:+ "-" +:+ slug ref;
                  path := dirname +:+ "/../" +:+ piece +:+ "-" +:+ slug ref;
                  repository := member "name" (member "repository" pv);
                  branch := index0 (slice_last (split "/"%char ref)) |}))
  end.
Proof.
  unfold dispatch_push, parse_payload, malformed, slug.
  destruct (JSON_parse _) as [pv|]; [|reflexivity].
  destruct pv as [| |b|n|s|l|ms]; try reflexivity.
  simpl.
  destruct (get_own "repository" ms) as [rv|]; [|reflexivity].
  destruct (get_own "ref" ms) as [fv|].
  2: { destruct rv as [| |b|n|s|l|ms2]; try reflexivity;
       simpl; try (destruct (get_own "name" ms2) as [nv|]; simpl);
       try destruct (join_piece nv); try reflexivity. }
  rewrite get_member_eq.
  destruct (nullish rv); [reflexivity|].
  generalize (member "name" rv). intros repo.
  destruct (join_piece repo) as [piece|] eqn:Hp;
    destruct fv as [| |b|n|s|l|ms']; simpl; rewrite ?Hp; try reflexivity.
  eexists _, _. split_and!; reflexivity.
Qed.


(** The hook runs nothing itself, and the name it builds has a dash. *)
Lemma routeHookPush_shape ranges req :
  runs (routeHookPush ranges req).1 = [] ∧
  match (routeHookPush ranges req).2 with
  | inr (Some d) => has_dash (name d) = true
  | _ => True
  end.
Proof.
  unfold routeHookPush.
  destruct (range_loop _ _ _); [|done].
  pose proof (dispatch_push_spec req) as H.
  destruct (JSON_parse _) as [pv|]; [|now rewrite H].
  destruct (malformed pv); [now rewrite H|].
  destruct H as (ref & piece & _ & _ & ->). simpl.
  split; [done | apply has_dash_app].
Qed.

Lemma step_hook_trace st req st' :
  step st (HookPush req) = Some st' →
  runs (trace st') = runs (trace st) ∧
  (probes st' = probes st ∨
   ∃ d, probes st' = probes st ++ [d] ∧ plain_name (name d) = true).
Proof.
  simpl. pose proof (routeHookPush_shape (githubIpRanges st) req) as [Hr Hd].
  destruct (routeHookPush _ _) as [es r]. simpl in *.
  assert (Hruns : runs (trace st ++ es) = runs (trace st)).
  { rewrite runs_app, Hr. apply app_nil_r. }
  destruct r as [e|[d|]]; intros [= <-]; simpl; split; auto.
  right. exists d. split; [done | now apply plain_of_dash].
Qed.

(** ** After a failed pull nothing is ever released *)

Lemma wedged_deploy held ran v st :
  wedged held ran st → wedged held ran (deploy v st).
Proof.
  intros (Ht & Ha & Hh & Hr).
  rewrite deploy_queues by (rewrite Ha; apply orb_true_r).
  unfold wedged, active. simpl. split_and!; try done.
  rewrite runs_app, Hr. simpl. apply app_nil_r.
Qed.

Lemma wedged_step held ran st ev st' :
  wedged held ran st → step st ev = Some st' → wedged held ran st'.
Proof.
  intros Hw Hstep. destruct ev as [req|hooks|d|i found|i err stdo|i err].
  - destruct Hw as (Ht & Ha & Hh & Hr).
    destruct (step_hook_fields _ _ _ Hstep) as (Hd & _ & Ht' & _).
    destruct (step_hook_trace _ _ _ Hstep) as (Hr' & _).
    unfold wedged, active in *. rewrite Hd, Ht', Hr'. done.
  - injection Hstep as <-. exact Hw.
  - injection Hstep as <-. now apply wedged_deploy.
  - simpl in Hstep. destruct (probes st !! i) as [d|]; [|done].
    injection Hstep as <-. unfold exists_done.
    destruct found; [apply wedged_deploy|].
    all: destruct Hw as (Ht & Ha & Hh & Hr); unfold wedged, active; simpl;
      split_and!; try done; rewrite runs_app, Hr; simpl; apply app_nil_r.
  - destruct Hw as (Ht & _). simpl in Hstep. now rewrite Ht in Hstep.
  - destruct Hw as (Ht & _). simpl in Hstep. now rewrite Ht in Hstep.
Qed.

Lemma wedged_run held ran evs : ∀ st st',
  wedged held ran st → run_events st evs = Some st' → wedged held ran st'.
Proof.
  induction evs as [|ev evs IH]; simpl; intros st st' Hw Hrun.
  - now injection Hrun as <-.
  - destruct (step st ev) as [st1|] eqn:Hstep; [|done].
    eapply IH; [|exact Hrun]. eapply wedged_step; eauto.
Qed.

(** C2 (the code departs from the claim).  Once the pull of the first
    deployment has failed, whatever events follow, [deploying.active] is
    still true, the deployer's name is still marked in [deploying], no
    callback is outstanding and nothing has been run: every later
    submission is queued and none is ever started. *)
Theorem failed_pull_keeps_lock (d : deployer) (e stdo : string)
    (evs : list event) (st : state) :
  run_events initial (Scheduled d :: PullCallback 0 (Some e) stdo :: evs)
    = Some st →
  active st = true ∧
  has_own (name d) (deploying st) = true ∧
  tasks st = [] ∧
  runs (trace st) = [].
Proof.
  intros Hrun. simpl in Hrun.
  destruct (deploy_cases (VDeployer d) initial)
    as [(Ht & _) | (_ & Hp & Ha & Ht & _ & Hr & Hd)].
  { rewrite Ht in Hrun. done. }
  rewrite Ht in Hrun. simpl in Hrun.
  apply (wedged_run (name d) []) in Hrun.
  { destruct Hrun as (? & ? & ? & ?). done. }
  unfold wedged, active. simpl.
  rewrite runs_app, Hr. split_and!; try done.
  rewrite Hd. apply has_own_set_own. unfold has_own. now rewrite get_set_own.
Qed.

Lemma has_own_queue_set k k' v q :
  has_own k (q_own q) = true → has_own k (q_own (queue_set k' v q)) = true.
Proof.
  intros Hk. unfold queue_set.
  destruct (String.eqb k' "__proto__"); [now destruct v|].
  simpl. now apply has_own_set_own.
Qed.

(** While the server is wedged, what is queued stays queued. *)
Lemma queued_key_kept_step held ran k st ev st' :
  wedged held ran st → has_own k (q_own (queued st)) = true →
  step st ev = Some st' → has_own k (q_own (queued st')) = true.
Proof.
  intros (Ht & Ha & _) Hk Hstep.
  assert (Hdeploy : ∀ v s, active s = true → queued s = queued st →
            has_own k (q_own (queued (deploy v s))) = true).
  { intros v s Has Hqs.
    rewrite deploy_queues by (rewrite Has; apply orb_true_r).
    simpl. rewrite Hqs. now apply has_own_queue_set. }
  destruct ev as [req|hooks|d|i found|i err stdo|i err].
  - apply step_hook_fields in Hstep as (_ & -> & _). exact Hk.
  - injection Hstep as <-. exact Hk.
  - injection Hstep as <-. now apply Hdeploy.
  - simpl in Hstep. destruct (probes st !! i) as [d|]; [|done].
    injection Hstep as <-. unfold exists_done.
    destruct found; [|exact Hk]. now apply Hdeploy.
  - simpl in Hstep. now rewrite Ht in Hstep.
  - simpl in Hstep. now rewrite Ht in Hstep.
Qed.

Lemma queued_key_kept_run held ran k evs : ∀ st st',
  wedged held ran st → has_own k (q_own (queued st)) = true →
  run_events st evs = Some st' → has_own k (q_own (queued st')) = true.
Proof.
  induction evs as [|ev evs IH]; simpl; intros st st' Hw Hk Hrun.
  - now injection Hrun as <-.
  - destruct (step st ev) as [st1|] eqn:Hstep; [|done].
    eapply IH; [| |exact Hrun].
    + eapply wedged_step; eauto.
    + eapply queued_key_kept_step; eauto.
Qed.

(** C4 (the code departs from the claim).  In any state the server has
    reached, if the pull of a deployment fails while a request is queued
    under some name, then whatever events follow, that request is still
    queued, [deploying.active] is still true, no callback is outstanding
    and nothing more has been handed to [run]: the queue is never
    drained.  This is the early return of the pull-error branch (C2),
    met by a deployment the drain step started. *)
Theorem failed_pull_strands_queue (evs evs' : list event)
    (st st1 st' : state) (i : nat) (e stdo : string) (k : string) :
  run_events initial evs = Some st →
  has_own k (q_own (queued st)) = true →
  step st (PullCallback i (Some e) stdo) = Some st1 →
  run_events st1 evs' = Some st' →
  has_own k (q_own (queued st')) = true ∧
  active st' = true ∧ tasks st' = [] ∧
  runs (trace st') = runs (trace st).
Proof.
  intros Hrun Hk Hstep Hrun'.
  assert (Hsf : single_flight st).
  { eapply single_flight_run; [|exact Hrun]. now left. }
  simpl in Hstep. destruct (tasks st !! i) as [[v|v]|] eqn:Hi; try done.
  injection Hstep as <-.
  destruct (single_flight_lookup _ _ _ Hsf Hi) as (_ & Hdel & Hact).
  assert (Hw : wedged "active" (runs (trace st))
                 (pull_done v (Some e) stdo (delete i (tasks st)) st)).
  { unfold wedged. rewrite Hdel. simpl. split_and!; try done.
    - unfold active in Hact. unfold has_own.
      now destruct (get_own "active" (deploying st)).
    - rewrite runs_app. simpl. apply app_nil_r. }
  split.
  - eapply queued_key_kept_run; [exact Hw | exact Hk | exact Hrun'].
  - destruct (wedged_run _ _ _ _ _ Hw Hrun') as (? & ? & _ & ?). done.
Qed.

(* ===================================================================== *)
(** ** Plain names: the lock and the queue move together                  *)
(* ===================================================================== *)

Lemma plain_name_facts n :
  plain_name n = true →
  truthy n = true ∧ String.eqb n "active" = false ∧
  String.eqb n "__proto__" = false ∧
  has_property n [("active", false)] = false.
Proof.
  unfold plain_name. intros H. apply andb_true_iff in H as [Ht Hp].
  apply negb_true_iff in Hp. split_and!; try done.
  - unfold has_property, has_own in Hp. simpl in Hp.
    now destruct (String.eqb n "active").
  - unfold has_property in Hp. apply orb_false_iff in Hp as [_ Hi].
    unfold inherited in Hi. simpl in Hi.
    repeat (apply orb_false_iff in Hi as [? Hi]). done.
Qed.

Lemma Forall_set_own {V} (P : string * V → Prop) k v ps :
  P (k, v) → Forall P ps → Forall P (set_own k v ps).
Proof.
  intros Hk. induction 1 as [|[k' v'] ps Hx Hps IH]; simpl.
  - now constructor.
  - destruct (String.eqb_spec k k') as [->|Hne]; constructor; auto.
Qed.

Lemma Forall_delete_own {V} (P : string * V → Prop) k ps :
  Forall P ps → Forall P (delete_own k ps).
Proof.
  induction 1 as [|[k' v'] ps Hx Hps IH]; simpl; [constructor|].
  destruct (String.eqb k k'); [done|]. now constructor.
Qed.

Lemma delete_own_absent {V} k (ps : props V) :
  k ∉ keys ps → delete_own k ps = ps.
Proof.
  induction ps as [|[k' v'] ps IH]; simpl; [done|].
  intros Hk. apply not_elem_of_cons in Hk as [Hne Hk].
  apply String.eqb_neq in Hne. rewrite Hne. now rewrite IH.
Qed.

(** Deleting the key of an entry removes that entry and nothing else. *)
Lemma delete_own_perm {V} k (v : V) ps :
  NoDup (keys ps) → (k, v) ∈ ps → ps ≡ₚ (k, v) :: delete_own k ps.
Proof.
  induction ps as [|[k' v'] ps IH]; simpl; intros Hnd Hin.
  - inversion Hin.
  - apply NoDup_cons in Hnd as [Hk' Hnd].
    apply elem_of_cons in Hin as [[= <- <-]|Hin].
    + rewrite String.eqb_refl. now rewrite delete_own_absent.
    + assert (Hne : k ≠ k').
      { intros ->. apply Hk'. apply list_elem_of_fmap. now exists (k', v). }
      apply String.eqb_neq in Hne. rewrite Hne.
      rewrite (IH Hnd Hin) at 1. apply Permutation_swap.
Qed.

Lemma least_index_elem {V} (ps : props V) n e :
  least_index ps = Some (n, e) → e ∈ ps.
Proof.
  revert n e. induction ps as [|[k v] ps IH]; simpl; intros n e; [done|].
  destruct (array_index k) as [i|], (least_index ps) as [[m e']|];
    try destruct (i <? m)%N; intros [= <- <-];
    try (left; fail); right; eauto.
Qed.

Lemma first_named_elem {V} (ps : props V) e :
  first_named ps = Some e → e ∈ ps.
Proof.
  induction ps as [|[k v] ps IH]; simpl; [done|].
  destruct (array_index k); [right; auto|]. intros [= <-]. left.
Qed.

Lemma first_own_elem {V} (ps : props V) e : first_own ps = Some e → e ∈ ps.
Proof.
  unfold first_own. destruct (least_index ps) as [[n e']|] eqn:E.
  - intros [= <-]. eapply least_index_elem; eauto.
  - apply first_named_elem.
Qed.

Lemma first_own_none {V} (ps : props V) : first_own ps = None → ps = [].
Proof.
  unfold first_own. destruct ps as [|[k v] ps]; [done|]. simpl.
  destruct (array_index k) as [i|].
  - now destruct (least_index ps) as [[m e']|]; [destruct (i <? m)%N|].
  - now destruct (least_index ps) as [[m e']|].
Qed.

Lemma plain_queue_set d q :
  plain_name (name d) = true → plain_queue q →
  plain_queue (queue_set (name d) (VDeployer d) q).
Proof.
  intros Hp (Hproto & Hnd & Hall).
  destruct (plain_name_facts _ Hp) as (_ & _ & Hne & _).
  unfold queue_set. rewrite Hne. split_and!; simpl; try done.
  - now apply NoDup_keys_set_own.
  - apply Forall_set_own; [|done]. now exists d.
Qed.

Lemma plain_queue_delete k q : plain_queue q → plain_queue (queue_delete k q).
Proof.
  intros (Hproto & Hnd & Hall). split_and!; simpl; try done.
  - now apply NoDup_keys_delete_own.
  - now apply Forall_delete_own.
Qed.

(** [deploy] when nothing holds the lock. *)
Lemma deploy_idle d st :
  plain_name (name d) = true →
  deploying st = [("active", false)] →
  deploy (VDeployer d) st =
    with_tasks (tasks st ++ [Pulling (VDeployer d)])
      (emit [Log Info ("Deploying " +:+ name d);
             Exec (pull_command (VDeployer d))]
         (with_deploying [("active", true); (name d, true)] st)).
Proof.
  intros Hp Hd. destruct (plain_name_facts _ Hp) as (_ & Hna & _ & Hin).
  rewrite deploy_starts.
  - rewrite Hd. simpl. now rewrite Hna.
  - simpl. unfold active. rewrite Hd. simpl. now rewrite Hin.
Qed.

Lemma orderly_deploy d st :
  plain_name (name d) = true → orderly st →
  orderly (deploy (VDeployer d) st).
Proof.
  intros Hp (Hq & Hpr & [(Hd & Ht & Hown) | (n & Hn & Hd & Hts)]).
  - rewrite deploy_idle by done. split_and!; simpl; try done.
    right. exists (name d). rewrite Ht. split_and!; try done.
    right. exists d. split; [done | now left].
  - rewrite deploy_queues
      by (unfold active; rewrite Hd; apply orb_true_r).
    split_and!; simpl; try done.
    + now apply plain_queue_set.
    + right. exists n. done.
Qed.

(** The callback of [run], on an orderly state: it frees the lock when
    nothing is queued, and otherwise hands it to one queued deployer whose
    entry leaves the queue. *)
Lemma run_done_orderly d err st :
  orderly st → tasks st = [Running (VDeployer d)] →
  orderly (run_done (VDeployer d) err [] st) ∧
  runs (trace (run_done (VDeployer d) err [] st)) = runs (trace st) ∧
  ((q_own (queued st) = [] ∧
    queued (run_done (VDeployer d) err [] st) = Queue [] None ∧
    active (run_done (VDeployer d) err [] st) = false ∧
    tasks (run_done (VDeployer d) err [] st) = [])
   ∨
   (∃ d', (name d', VDeployer d') ∈ q_own (queued st) ∧
      q_own (queued (run_done (VDeployer d) err [] st))
        = delete_own (name d') (q_own (queued st)) ∧
      active (run_done (VDeployer d) err [] st) = true ∧
      tasks (run_done (VDeployer d) err [] st) = [Pulling (VDeployer d')])).
Proof.
  intros (Hq & Hpr & [(Hd & Ht & Hown) | (n & Hn & Hd & Hts)]) Htask.
  { rewrite Ht in Htask. done. }
  destruct Hts as [Hts | (d0 & Hname & [Hts|Hts])]; rewrite Hts in Htask;
    try done.
  injection Htask as <-.
  destruct (plain_name_facts _ Hn) as (_ & Hna & _ & _).
  pose proof Hq as (Hproto & Hnd & Hall).
  unfold run_done.
  set (failed := match err with
                 | Some e => if truthy e then [_] else []
                 | None => []
                 end).
  assert (Hfailed : runs failed = []).
  { subst failed. destruct err as [e|]; [destruct (truthy e)|]; done. }
  set (st1 := with_tasks [] _).
  assert (Hd1 : deploying st1 = [("active", false)]).
  { subst st1. simpl. rewrite Hd, Hname. simpl.
    rewrite (proj2 (String.eqb_neq n "active")) by (now apply String.eqb_neq).
    simpl. now rewrite String.eqb_refl. }
  assert (Hr1 : runs (trace st1) = runs (trace st)).
  { subst st1. simpl. rewrite !runs_app, Hfailed. simpl.
    now rewrite app_nil_r. }
  unfold queue_first. change (queued st1) with (queued st).
  rewrite Hproto.
  destruct (first_own (q_own (queued st))) as [[k qv]|] eqn:Hfirst.
  - apply first_own_elem in Hfirst as Hin.
    pose proof (proj1 (Forall_forall _ _) Hall _ Hin) as (d' & [= -> ->] & Hp').
    destruct (plain_name_facts _ Hp') as (Htr & _).
    rewrite Htr. rewrite deploy_idle by done. simpl.
    split_and!.
    + unfold orderly. simpl. split_and!; try done.
      * now apply plain_queue_delete.
      * right. exists (name d'). split_and!; try done.
        right. exists d'. split; [done | now left].
    + rewrite !runs_app, Hfailed. simpl. now rewrite !app_nil_r.
    + right. exists d'. done.
  - apply first_own_none in Hfirst.
    assert (Hq1 : queued st1 = Queue [] None).
    { change (queued st1) with (queued st).
      destruct (queued st) as [own proto]. simpl in *. congruence. }
    split_and!.
    + unfold orderly. rewrite Hq1. split_and!; try done.
      * split_and!; simpl; [done | constructor | constructor].
      * left. done.
    + done.
    + left. split_and!; try done. unfold active. now rewrite Hd1.
Qed.

Lemma orderly_lookup st i t :
  orderly st → tasks st !! i = Some t →
  tasks st = [t] ∧ delete i (tasks st) = [] ∧
  ∃ d, t = Pulling (VDeployer d) ∨ t = Running (VDeployer d).
Proof.
  intros (_ & _ & [(_ & Ht & _) | (n & _ & _ & Hts)]) Hi.
  { rewrite Ht in Hi. done. }
  destruct Hts as [Hts | (d & _ & [Hts|Hts])]; rewrite Hts in *;
    try done; destruct i as [|i]; simpl in Hi; try done;
    injection Hi as <-; split_and!; try done; exists d; auto.
Qed.

Lemma pull_done_orderly d err stdo st :
  orderly st → tasks st = [Pulling (VDeployer d)] →
  orderly (pull_done (VDeployer d) err stdo [] st).
Proof.
  intros (Hq & Hpr & [(Hd & Ht & Hown) | (n & Hn & Hd & Hts)]) Htask.
  { rewrite Ht in Htask. done. }
  destruct Hts as [Hts | (d0 & Hname & [Hts|Hts])]; rewrite Hts in Htask;
    try done.
  injection Htask as <-.
  destruct err as [e|]; unfold orderly; simpl; split_and!; try done;
    right; exists n; split_and!; try done.
  - now left.
  - right. exists d0. split; [done | now right].
Qed.

Lemma orderly_step st ev st' :
  plain_event ev = true → orderly st → step st ev = Some st' → orderly st'.
Proof.
  intros Hev Ho Hstep.
  destruct ev as [req|hooks|d|i found|i err stdo|i err].
  - destruct (step_hook_fields _ _ _ Hstep) as (Hd & Hq & Ht & _).
    destruct (step_hook_trace _ _ _ Hstep) as (_ & Hpr).
    destruct Ho as (Hpq & Hprobes & Hcases).
    unfold orderly. rewrite Hd, Hq, Ht. split_and!; try done.
    destruct Hpr as [-> | (d & -> & Hp)]; [done|].
    apply Forall_app. split; [done|]. now constructor.
  - injection Hstep as <-. exact Ho.
  - injection Hstep as <-. now apply orderly_deploy.
  - simpl in Hstep. destruct (probes st !! i) as [d|] eqn:Hi; [|done].
    injection Hstep as <-.
    destruct Ho as (Hpq & Hprobes & Hcases).
    assert (Hp : plain_name (name d) = true).
    { eapply (proj1 (Forall_lookup _ _) Hprobes); eauto. }
    assert (Ho1 : orderly (with_probes (delete i (probes st))
              (emit [Log Debug (path d +:+ " exists: " +:+
                       (if found then "true" else "false"))] st))).
    { unfold orderly. simpl. split_and!; try done.
      now apply Forall_delete. }
    unfold exists_done. destruct found; [now apply orderly_deploy | done].
  - simpl in Hstep. destruct (tasks st !! i) as [[v|v]|] eqn:Hi; try done.
    injection Hstep as <-.
    destruct (orderly_lookup _ _ _ Ho Hi) as (Ht & -> & d & [[= ->]|?]);
      [|done].
    now apply pull_done_orderly.
  - simpl in Hstep. destruct (tasks st !! i) as [[v|v]|] eqn:Hi; try done.
    injection Hstep as <-.
    destruct (orderly_lookup _ _ _ Ho Hi) as (Ht & -> & d & [?|[= ->]]);
      [done|].
    now apply run_done_orderly.
Qed.

Lemma orderly_run evs : ∀ st st',
  Forall (λ ev, plain_event ev = true) evs →
  orderly st → run_events st evs = Some st' → orderly st'.
Proof.
  induction evs as [|ev evs IH]; simpl; intros st st' Hevs Ho Hrun.
  - now injection Hrun as <-.
  - apply Forall_cons in Hevs as [Hev Hevs].
    destruct (step st ev) as [st1|] eqn:Hstep; [|done].
    eapply IH; [done | | exact Hrun]. eapply orderly_step; eauto.
Qed.

Lemma orderly_initial : orderly initial.
Proof.
  unfold orderly. simpl. split_and!; try done.
  - split_and!; simpl; [done | constructor | constructor].
  - now left.
Qed.

Lemma modelled_is_plain ev : modelled_event ev = true → plain_event ev = true.
Proof. destruct ev; try done. simpl. apply plain_of_dash. Qed.

Lemma released_deploy v st : released st → released (deploy v st).
Proof.
  intros Hr.
  destruct (deploy_cases v st) as [(Ht & Hd & _) | (_ & _ & _ & Ht & _)].
  - unfold released, active in *. now rewrite Ht, Hd.
  - intros Hnil. rewrite Ht in Hnil. now destruct (tasks st).
Qed.

(** Unless a pull fails, no turn of the event loop leaves the lock held
    with nothing outstanding. *)
Lemma released_step st ev st' :
  pull_failed ev = false → released st → step st ev = Some st' →
  released st'.
Proof.
  intros Hev Hr Hstep. destruct ev as [req|hooks|d|i found|i err stdo|i err].
  - apply step_hook_fields in Hstep as (Hd & _ & Ht & _).
    unfold released, active in *. now rewrite Hd, Ht.
  - injection Hstep as <-. exact Hr.
  - injection Hstep as <-. now apply released_deploy.
  - simpl in Hstep. destruct (probes st !! i) as [d|]; [|done].
    injection Hstep as <-. unfold exists_done.
    destruct found; [apply released_deploy|]; exact Hr.
  - simpl in Hstep. destruct (tasks st !! i) as [[v|v]|]; try done.
    injection Hstep as <-. destruct err as [e|]; [done|].
    intros Hnil. simpl in Hnil. now destruct (delete i (tasks st)).
  - simpl in Hstep. destruct (tasks st !! i) as [[v|v]|]; try done.
    injection Hstep as <-. unfold run_done.
    set (st1 := with_tasks _ _).
    assert (H1 : released st1).
    { intros _. unfold active. subst st1. simpl. now rewrite get_set_own. }
    destruct (queue_first (queued st1)) as [[k qv]|]; [|done].
    destruct (truthy k); [|done]. now apply released_deploy.
Qed.

Lemma released_run evs : ∀ st st',
  Forall (λ ev, pull_failed ev = false) evs →
  released st → run_events st evs = Some st' → released st'.
Proof.
  induction evs as [|ev evs IH]; simpl; intros st st' Hevs Hr Hrun.
  - now injection Hrun as <-.
  - apply Forall_cons in Hevs as [Hev Hevs].
    destruct (step st ev) as [st1|] eqn:Hstep; [|done].
    eapply IH; [done | | exact Hrun]. eapply released_step; eauto.
Qed.

(** C3.  With the names of the data model (a repository, a dash, a
    branch segment: the only names the hook builds, asked here of the
    names schedules pass in as well), every state the server reaches
    with [deploying.active] false has nothing queued.  And the invariant
    is not kept by holding the lock idle: as long as no pull has failed,
    a non-empty queue always has a deployment outstanding, whose
    completion drains it. *)
Theorem unlocked_queue_is_empty (evs : list event) (st : state) :
  Forall (λ ev, modelled_event ev = true) evs →
  run_events initial evs = Some st →
  (active st = false → queued st = Queue [] None) ∧
  (Forall (λ ev, pull_failed ev = false) evs →
   q_own (queued st) ≠ [] → ∃ t, tasks st = [t] ∧ active st = true).
Proof.
  intros Hevs Hrun.
  assert (Ho : orderly st).
  { eapply orderly_run; [|apply orderly_initial|exact Hrun].
    eapply Forall_impl; [exact Hevs|]. apply modelled_is_plain. }
  destruct Ho as ((Hproto & _) & _ & [(Hd & _ & Hown) | (n & _ & Hd & Hts)]).
  - split.
    + intros _. destruct (queued st) as [own proto]. simpl in *. congruence.
    + intros _ Hne. done.
  - assert (Hact : active st = true) by (unfold active; now rewrite Hd).
    split; [congruence|]. intros Hok _.
    assert (Hr : released st).
    { eapply released_run; [exact Hok | | exact Hrun]. done. }
    destruct Hts as [Hnil | (d & _ & [-> | ->])]; eauto.
    specialize (Hr Hnil). congruence.
Qed.

(* ===================================================================== *)
(** ** Draining the queue                                                 *)
(* ===================================================================== *)

Lemma drain_core errs : ∀ st d e,
  orderly st → tasks st = [Running (VDeployer d)] →
  (length errs ≤ length (q_own (queued st)))%nat →
  ∃ st',
    run_events st (RunCallback 0 e :: completions errs) = Some st' ∧
    length (q_own (queued st'))
      = (length (q_own (queued st)) - S (length errs))%nat ∧
    length (runs (trace st'))
      = (length (runs (trace st)) + length errs)%nat ∧
    runs (trace st') ++ pulls (tasks st') ++ (q_own (queued st')).*2
      ≡ₚ runs (trace st) ++ (q_own (queued st)).*2 ∧
    (length errs = length (q_own (queued st)) →
     queued st' = Queue [] None ∧ active st' = false ∧ tasks st' = []).
Proof.
  induction errs as [|e1 errs IH]; intros st d e Ho Ht Hlen.
  - exists (run_done (VDeployer d) e [] st). simpl. rewrite Ht. simpl.
    split; [done|].
    destruct (run_done_orderly d e st Ho Ht)
      as (Ho' & Hr & [(Hq & Hq' & Ha & Ht') | (d' & Hin & Hq' & Ha & Ht')]).
    + rewrite Hq', Hq, Hr, Ht'. simpl. split_and!; try done; try lia.
    + assert (Hperm : q_own (queued st)
                ≡ₚ (name d', VDeployer d') :: q_own (queued (run_done
                     (VDeployer d) e [] st))).
      { rewrite Hq'. apply delete_own_perm; [|done]. apply Ho. }
      rewrite Hr, Ht'. split_and!.
      * rewrite Hperm. simpl. lia.
      * lia.
      * rewrite Hperm. simpl. done.
      * intros Hnil. rewrite Hperm in Hnil. done.
  - simpl in Hlen.
    destruct (run_done_orderly d e st Ho Ht)
      as (Ho1 & Hr1 & [(Hq & _) | (d' & Hin & Hq1 & Ha1 & Ht1)]).
    { rewrite Hq in Hlen. simpl in Hlen. lia. }
    set (st1 := run_done (VDeployer d) e [] st) in *.
    assert (Hperm : q_own (queued st)
              ≡ₚ (name d', VDeployer d') :: q_own (queued st1)).
    { rewrite Hq1. apply delete_own_perm; [|done]. apply Ho. }
    set (st2 := pull_done (VDeployer d') None "" [] st1).
    assert (Ho2 : orderly st2) by now apply pull_done_orderly.
    destruct (IH st2 d' e1 Ho2 eq_refl) as (st' & Hrun & Hl & Hn & Hp & Hfin).
    { change (queued st2) with (queued st1).
      rewrite Hperm in Hlen. simpl in Hlen. lia. }
    exists st'. split.
    { simpl. rewrite Ht. simpl. fold st1. rewrite Ht1. simpl. exact Hrun. }
    change (queued st2) with (queued st1) in *.
    assert (Hr2 : runs (trace st2) = runs (trace st) ++ [VDeployer d']).
    { subst st2. simpl. rewrite runs_app, Hr1. done. }
    rewrite Hr2 in *. rewrite Hperm. simpl. split_and!.
    + rewrite Hl. lia.
    + rewrite Hn, length_app. simpl. lia.
    + rewrite Hp, <- app_assoc. simpl.
      apply Permutation_app_head. done.
    + intros Heq. apply Hfin. lia.
Qed.

(** X19.  Take a state reached through plain names in which a
    deployment is running and [N] requests are queued.  If that run
    reports, and each deployment taken from the queue pulls without
    error and its run reports, then the first [k+1] completions ([k ≤ N])
    leave [N - (k+1)] requests queued and have handed [k] of them to
    [run]; no request is lost or run twice (what was run, what is being
    pulled and what is still queued are together what was run or queued
    before); and after [N+1] completions [queued] is empty,
    [deploying.active] is false and no callback is outstanding. *)
Theorem drain_is_exhaustive (evs : list event) (st : state) (v : value)
    (e : option string) (errs : list (option string)) :
  Forall (λ ev, plain_event ev = true) evs →
  run_events initial evs = Some st →
  tasks st = [Running v] →
  (length errs ≤ length (q_own (queued st)))%nat →
  ∃ st',
    run_events st (RunCallback 0 e :: completions errs) = Some st' ∧
    length (q_own (queued st'))
      = (length (q_own (queued st)) - S (length errs))%nat ∧
    length (runs (trace st'))
      = (length (runs (trace st)) + length errs)%nat ∧
    runs (trace st') ++ pulls (tasks st') ++ (q_own (queued st')).*2
      ≡ₚ runs (trace st) ++ (q_own (queued st)).*2 ∧
    (length errs = length (q_own (queued st)) →
     queued st' = Queue [] None ∧ active st' = false ∧ tasks st' = []).
Proof.
  intros Hevs Hrun Ht Hlen.
  assert (Ho : orderly st).
  { eapply orderly_run; eauto using orderly_initial. }
  destruct (orderly_lookup st 0 (Running v) Ho) as (_ & _ & d & [?|[= ->]]);
    [now rewrite Ht | done |].
  now apply (drain_core errs st d e).
Qed.

(* ===================================================================== *)
(** ** Admission                                                          *)
(* ===================================================================== *)

Lemma has_slash_cons c s :
  has_slash (String c s) = Ascii.eqb "/"%char c || has_slash s.
Proof. reflexivity. Qed.

Lemma split_pieces_no_slash s :
  Forall (λ p, has_slash p = false) (split "/"%char s).
Proof.
  induction s as [|c s IH]; simpl; [now repeat constructor|].
  destruct (Ascii.eqb c "/"%char) eqn:E; [now constructor|].
  rewrite Ascii.eqb_sym in E.
  destruct (split "/"%char s) as [|piece pieces].
  - repeat constructor. now rewrite has_slash_cons, E.
  - apply Forall_cons in IH as [Hp Hps]. constructor; [|done].
    now rewrite has_slash_cons, E.
Qed.

Lemma slug_last_piece ref :
  ∃ x, slice_last (split "/"%char ref) = [x] ∧ slug ref = x ∧
       has_slash x = false.
Proof.
  unfold slug, slice_last.
  destruct (last (split "/"%char ref)) as [x|] eqn:E.
  - exists x. split_and!; try done.
    apply last_Some_elem_of in E.
    exact (proj1 (Forall_forall _ _) (split_pieces_no_slash ref) x E).
  - apply last_None in E. now apply split_nonempty in E.
Qed.


Lemma step_hook st req :
  step st (HookPush req) =
    match routeHookPush (githubIpRanges st) req with
    | (es, inr (Some d)) =>
        Some (with_probes (probes st ++ [d]) (emit es st))
    | (es, _) => Some (emit es st)
    end.
Proof.
  simpl. now destruct (routeHookPush _ _) as [es [e|[d|]]].
Qed.

(** C7, as the code has it.  For an admitted push whose payload has a
    string [ref] and a repository name that converts to a string, the
    deployer's [branch] is the last segment of the ref, its [name] is the
    repository name, a dash and that same segment, and the segment holds
    no slash; for [refs/heads/feature/x] the segment is [x]. *)
Theorem branch_is_last_segment (ranges : list string) (req : request)
    (pv : jsval) (ref : string) :
  range_loop in_range (source_ip req) ranges = true →
  JSON_parse (default "undefined" (payload req)) = Some pv →
  malformed pv = false →
  member "ref" pv = JStr ref →
  ∃ es d piece,
    routeHookPush ranges req = (es, inr (Some d)) ∧
    branch d = JStr (slug ref) ∧
    join_piece (member "name" (member "repository" pv)) = Some piece ∧
    name d = piece +:+ "-" +:+ slug ref ∧
    has_slash (slug ref) = false ∧
    slug "refs/heads/feature/x" = "x".
Proof.
  intros Hadm Hparse Hwf Href.
  pose proof (dispatch_push_spec req) as H. rewrite Hparse, Hwf in H.
  destruct H as (ref' & piece & Href' & Hpiece & Heq).
  rewrite Href in Href'. injection Href' as <-.
  destruct (slug_last_piece ref) as (x & Hx & Hslug & Hno).
  unfold routeHookPush. rewrite Hadm, Heq.
  eexists _, _, piece. split; [reflexivity|]. simpl.
  rewrite Hx, Hslug. simpl. split_and!; done.
Qed.

(** C8, as the code has it.  For an admitted push whose payload does not
    parse, or parses to a value the handler cannot read a repository name
    and a ref from, the handler throws after logging that a push was
    received: it builds no deployer, probes nothing (so [deploy] is never
    called for it) and sends no response itself. *)
Theorem malformed_payload_throws (ranges : list string) (req : request) :
  range_loop in_range (source_ip req) ranges = true →
  match JSON_parse (default "undefined" (payload req)) with
  | None => True
  | Some pv => malformed pv = true
  end →
  ∃ e,
    routeHookPush ranges req = ([Log Info "Received push event"], inl e) ∧
    ∀ st, githubIpRanges st = ranges →
          step st (HookPush req)
          = Some (emit [Log Info "Received push event"] st).
Proof.
  intros Hadm Hbad.
  pose proof (dispatch_push_spec req) as H.
  assert (He : ∃ e, dispatch_push JSON_parse dirname req
                    = ([Log Info "Received push event"], inl e)).
  { destruct (JSON_parse _) as [pv|]; [rewrite Hbad in H|]; eauto. }
  destruct He as [e He]. exists e.
  assert (Hr : routeHookPush ranges req
               = ([Log Info "Received push event"], inl e)).
  { unfold routeHookPush. now rewrite Hadm. }
  split; [done|]. intros st <-. now rewrite step_hook, Hr.
Qed.


(** C10.  With an empty allow-list the loop body never runs: whatever the
    address, the handler does not take the rejection branch and goes on
    to parsing and dispatch. *)
Theorem empty_allow_list_admits_all (req : request) :
  range_loop in_range (source_ip req) [] = true ∧
  routeHookPush [] req = dispatch_push JSON_parse dirname req ∧
  routeHookPush [] req ≠ reject_push (source_ip req).
Proof.
  split_and!; try done.
  unfold routeHookPush. simpl.
  pose proof (dispatch_push_spec req) as H.
  destruct (JSON_parse _) as [pv|]; [destruct (malformed pv)|].
  - now rewrite H.
  - destruct H as (ref & piece & _ & _ & ->). done.
  - now rewrite H.
Qed.

End Orchestrator.

(* ===================================================================== *)
(** ** The statements at sample inputs                                    *)
(* ===================================================================== *)

Ltac evaluate := vm_compute; reflexivity.

(** Two submissions in a row: the second waits. *)
Lemma at_most_one_deployment_sample :
  ∃ st,
    sample_run initial
      [Scheduled (target "app-main"); Scheduled (target "lib-dev")]
      = Some st ∧
    (length (tasks st) ≤ 1)%nat.
Proof.
  eexists. split; [evaluate|].
  apply (at_most_one_deployment cidr_in_range parses_nothing "/srv/deploy"
           [Scheduled (target "app-main"); Scheduled (target "lib-dev")]).
  evaluate.
Defined.

(** The pull of [app-main] fails, then [lib-dev] is submitted. *)
Lemma failed_pull_keeps_lock_sample :
  ∃ st,
    sample_run initial
      [Scheduled (target "app-main"); PullCallback 0 (Some "exit 1") "";
       Scheduled (target "lib-dev")] = Some st ∧
    active st = true ∧ has_own "app-main" (deploying st) = true ∧
    tasks st = [] ∧ runs (trace st) = [].
Proof.
  eexists. split; [evaluate|].
  apply (failed_pull_keeps_lock cidr_in_range parses_nothing "/srv/deploy"
           (target "app-main") "exit 1" "" [Scheduled (target "lib-dev")]).
  evaluate.
Defined.

(** Two targets deployed one after the other; then nothing is left. *)
Lemma unlocked_queue_is_empty_sample :
  ∃ st,
    sample_run initial
      [Scheduled (target "app-main"); Scheduled (target "lib-dev");
       PullCallback 0 None ""; RunCallback 0 None;
       PullCallback 0 None ""; RunCallback 0 None] = Some st ∧
    active st = false ∧ queued st = Queue [] None.
Proof.
  eexists. split; [evaluate|]. split; [evaluate|].
  apply (unlocked_queue_is_empty cidr_in_range parses_nothing "/srv/deploy"
           [Scheduled (target "app-main"); Scheduled (target "lib-dev");
            PullCallback 0 None ""; RunCallback 0 None;
            PullCallback 0 None ""; RunCallback 0 None]).
  - repeat constructor.
  - evaluate.
  - evaluate.
Defined.

(** [lib-dev] and [web-main] wait for [app-main]; its run reports, the
    pull of [lib-dev] fails, and [web-main] is pushed again. *)
Lemma failed_pull_strands_queue_sample :
  ∃ st st1 st',
    sample_run initial
      [Scheduled (target "app-main"); PullCallback 0 None "";
       Scheduled (target "lib-dev"); Scheduled (target "web-main");
       RunCallback 0 None] = Some st ∧
    sample_step st (PullCallback 0 (Some "exit 1") "") = Some st1 ∧
    sample_run st1 [Scheduled (target "web-main")] = Some st' ∧
    has_own "web-main" (q_own (queued st')) = true ∧
    active st' = true ∧ tasks st' = [] ∧
    runs (trace st') = [VDeployer (target "app-main")].
Proof.
  eexists _, _, _. split; [evaluate|]. split; [evaluate|].
  split; [evaluate|].
  assert (H := failed_pull_strands_queue cidr_in_range parses_nothing
           "/srv/deploy"
           [Scheduled (target "app-main"); PullCallback 0 None "";
            Scheduled (target "lib-dev"); Scheduled (target "web-main");
            RunCallback 0 None]
           [Scheduled (target "web-main")] _ _ _ 0 "exit 1" "" "web-main"
           ltac:(evaluate) ltac:(evaluate) ltac:(evaluate) ltac:(evaluate)).
  destruct H as (Hk & Ha & Ht & Hr).
  split_and!; [exact Hk | exact Ha | exact Ht | rewrite Hr; evaluate].
Defined.

(** Two requests are queued behind [app-main] and all three are run. *)
Lemma drain_is_exhaustive_sample :
  ∃ st st',
    sample_run initial
      [Scheduled (target "app-main"); PullCallback 0 None "";
       Scheduled (target "lib-dev"); Scheduled (target "web-main")]
      = Some st ∧
    tasks st = [Running (VDeployer (target "app-main"))] ∧
    sample_run st (RunCallback 0 None :: completions [None; Some "failed"])
      = Some st' ∧
    queued st' = Queue [] None ∧ active st' = false ∧ tasks st' = [] ∧
    runs (trace st') ≡ₚ
      [VDeployer (target "app-main"); VDeployer (target "lib-dev");
       VDeployer (target "web-main")].
Proof.
  eexists.
  assert (H := drain_is_exhaustive cidr_in_range parses_nothing "/srv/deploy"
           [Scheduled (target "app-main"); PullCallback 0 None "";
            Scheduled (target "lib-dev"); Scheduled (target "web-main")]
           _ (VDeployer (target "app-main")) None [None; Some "failed"]
           ltac:(repeat constructor) ltac:(evaluate) ltac:(evaluate)
           ltac:(vm_compute; lia)).
  destruct H as (st' & Hrun & _ & _ & Hperm & Hfin).
  exists st'. destruct (Hfin ltac:(evaluate)) as (Hq & Ha & Ht).
  split_and!; try done; try evaluate.
  assert (Hl : runs (trace st') ++ pulls (tasks st')
               ++ (q_own (queued st')).*2 = runs (trace st')).
  { rewrite Ht, Hq. simpl. apply app_nil_r. }
  rewrite Hl in Hperm. rewrite Hperm. evaluate.
Defined.

(** [lib-dev] is queued behind [app-main] and pushed again. *)
Lemma resubmission_replaces_sample :
  ∃ st,
    sample_run initial
      [Scheduled (target "app-main"); Scheduled (target "lib-dev")]
      = Some st ∧
    keys (q_own (queued (deploy (VDeployer (Deployer "lib-dev" "/srv/other"
                                   (JStr "lib") (JStr "dev"))) st)))
      = keys (q_own (queued st)) ∧
    get_own "lib-dev"
      (q_own (queued (deploy (VDeployer (Deployer "lib-dev" "/srv/other"
                                (JStr "lib") (JStr "dev"))) st)))
      = Some (VDeployer (Deployer "lib-dev" "/srv/other"
                           (JStr "lib") (JStr "dev"))).
Proof.
  eexists. split; [evaluate|].
  assert (H := resubmission_replaces cidr_in_range parses_nothing
              "/srv/deploy"
              [Scheduled (target "app-main"); Scheduled (target "lib-dev")]
              _ (Deployer "lib-dev" "/srv/other" (JStr "lib") (JStr "dev"))
              ltac:(evaluate) ltac:(evaluate) ltac:(evaluate)).
  destruct H as (Hkeys & _ & Hget & _).
  split; [exact Hkeys | exact Hget].
Defined.

Lemma failed_pull_skips_run_sample :
  ∃ st',
    sample_step (deploy (VDeployer (target "app-main")) initial)
      (PullCallback 0 (Some "exit 1") "") = Some st' ∧
    runs (trace st') = runs (trace (deploy (VDeployer (target "app-main"))
                                      initial)).
Proof.
  assert (H := failed_pull_skips_run cidr_in_range parses_nothing
              "/srv/deploy"
              (deploy (VDeployer (target "app-main")) initial) 0
              (VDeployer (target "app-main")) "exit 1" ""
              ltac:(evaluate)).
  destruct H as (st' & Hstep & _ & Hruns & _).
  exists st'. split; [exact Hstep | exact Hruns].
Defined.

(** C7 fails as stated: for the ref [refs/heads/feature/x] the deployer's
    branch is [x], not [feature/x]. *)
Lemma branch_is_not_the_full_path :
  ¬ ∀ ranges req pv,
      range_loop cidr_in_range (source_ip req) ranges = true →
      parses_to_push (default "undefined" (payload req)) = Some pv →
      member "ref" pv = JStr "refs/heads/feature/x" →
      ∃ es d, sample_hook ranges req = (es, inr (Some d)) ∧
              branch d = JStr "feature/x".
Proof.
  intros H.
  destruct (H ["10.0.0.0/8"] (push_from "10.1.2.3") push_payload
              ltac:(evaluate) ltac:(evaluate) ltac:(evaluate))
    as (es & d & Heq & Hb).
  vm_compute in Heq. injection Heq as <- <-. discriminate Hb.
Qed.

Lemma branch_is_last_segment_sample :
  ∃ es d,
    sample_hook ["10.0.0.0/8"] (push_from "10.1.2.3") = (es, inr (Some d)) ∧
    branch d = JStr "x" ∧ name d = "app-x".
Proof.
  assert (H := branch_is_last_segment cidr_in_range parses_to_push
              "/srv/deploy"
              ["10.0.0.0/8"] (push_from "10.1.2.3") push_payload
              "refs/heads/feature/x" ltac:(evaluate) ltac:(evaluate)
              ltac:(evaluate) ltac:(evaluate)).
  destruct H as (es & d & piece & Heq & Hb & Hp & Hn & _ & Hx).
  exists es, d. rewrite Hb, Hn, Hx.
  vm_compute in Hp. injection Hp as <-.
  split_and!; [exact Heq | reflexivity | reflexivity].
Defined.

(** C8 fails as stated: when the payload does not parse, the handler
    sends nothing. *)
Lemma malformed_payload_gets_no_response :
  ¬ ∀ ranges req,
      range_loop cidr_in_range (source_ip req) ranges = true →
      parses_nothing (default "undefined" (payload req)) = None →
      Send "" ∈ (routeHookPush cidr_in_range parses_nothing "/srv/deploy"
                   ranges req).1.
Proof.
  intros H.
  specialize (H ["10.0.0.0/8"] (push_from "10.1.2.3")
                ltac:(evaluate) ltac:(evaluate)).
  vm_compute in H. apply list_elem_of_singleton in H. discriminate H.
Qed.

Lemma malformed_payload_throws_sample :
  ∃ e,
    routeHookPush cidr_in_range parses_nothing "/srv/deploy"
      ["10.0.0.0/8"] (push_from "10.1.2.3")
    = ([Log Info "Received push event"], inl e).
Proof.
  assert (H := malformed_payload_throws cidr_in_range parses_nothing
              "/srv/deploy" ["10.0.0.0/8"] (push_from "10.1.2.3")
              ltac:(evaluate) I).
  destruct H as (e & Heq & _).
  exists e. exact Heq.
Defined.



(* ===================================================================== *)
(** ** Further properties of the orchestrator                             *)
(* ===================================================================== *)

Lemma same_control_refl st : same_control st st.
Proof. unfold same_control. done. Qed.

Lemma same_control_emit es st : same_control (emit es st) st.
Proof. unfold same_control. done. Qed.

Lemma same_control_trans st1 st2 st3 :
  same_control st1 st2 → same_control st2 st3 → same_control st1 st3.
Proof.
  unfold same_control. intros (-> & -> & -> & -> & ->). done.
Qed.

Lemma same_control_sym st1 st2 : same_control st1 st2 → same_control st2 st1.
Proof. unfold same_control. intros (-> & -> & -> & -> & ->). done. Qed.

(** [deploy] reads nothing of the trace. *)
Lemma deploy_same_control v st st' :
  same_control st st' → same_control (deploy v st) (deploy v st').
Proof.
  intros (Hr & Hd & Hq & Hp & Ht). unfold deploy, active.
  rewrite Hd. destruct (has_property _ _ || _);
    unfold same_control; simpl; rewrite ?Hr, ?Hd, ?Hq, ?Hp, ?Ht; done.
Qed.

Lemma runs_trace_logged q l m st :
  runs (trace (with_queued q (emit [Log l m] st))) = runs (trace st).
Proof. simpl. rewrite runs_app. simpl. apply app_nil_r. Qed.

(** X1.  Whether the target's [run] reports an error or not changes
    nothing but the log: the lock is released, the name unmarked and the
    queue drained in the same way. *)
Theorem run_error_only_logged (v : value) (err : option string)
    (rest : list task) (st : state) :
  same_control (run_done v err rest st) (run_done v None rest st) ∧
  runs (trace (run_done v err rest st))
    = runs (trace (run_done v None rest st)).
Proof.
  unfold run_done.
  set (failed := match err with
                 | Some e => if truthy e then [_] else []
                 | None => []
                 end).
  assert (Hfailed : runs failed = []).
  { subst failed. destruct err as [e|]; [destruct (truthy e)|]; done. }
  set (st1 := with_tasks rest (emit (failed ++ _) _)).
  set (st2 := with_tasks rest (emit ([] ++ _) _)).
  assert (Hsame : same_control st1 st2) by (unfold same_control; done).
  assert (Hruns : runs (trace st1) = runs (trace st2)).
  { subst st1 st2. simpl. rewrite !runs_app, Hfailed. done. }
  change (queued st1) with (queued st2).
  destruct (queue_first (queued st2)) as [[k qv]|]; [|done].
  destruct (truthy k); [|done]. split.
  - apply deploy_same_control. unfold same_control. done.
  - destruct (deploy_cases qv (with_queued (queue_delete k (queued st2))
                 (emit [Log Info ("Running queued job: " +:+ k)] st1)))
      as [(_ & _ & ->) | (_ & _ & _ & _ & _ & -> & _)];
    destruct (deploy_cases qv (with_queued (queue_delete k (queued st2))
                 (emit [Log Info ("Running queued job: " +:+ k)] st2)))
      as [(_ & _ & ->) | (_ & _ & _ & _ & _ & -> & _)];
    rewrite !runs_trace_logged; exact Hruns.
Qed.

Section Beyond.
Variable in_range : string → string → bool.
Variable JSON_parse : string → option jsval.
Variable dirname : string.

Abbreviation step := (step in_range JSON_parse dirname).
Abbreviation run_events := (run_events in_range JSON_parse dirname).
Abbreviation routeHookPush :=
  (routeHookPush in_range JSON_parse dirname).

(** X2.  In any state the server has reached, once the callback of a
    pull fires with an error, no later event releases the lock: whatever
    follows, [deploying.active] is true, no callback is outstanding and
    nothing more is handed to [run]. *)
Theorem any_failed_pull_wedges (evs evs' : list event) (st st1 st' : state)
    (i : nat) (e stdo : string) :
  run_events initial evs = Some st →
  step st (PullCallback i (Some e) stdo) = Some st1 →
  run_events st1 evs' = Some st' →
  active st' = true ∧ tasks st' = [] ∧ runs (trace st') = runs (trace st).
Proof.
  intros Hrun Hstep Hrun'.
  assert (Hsf : single_flight st).
  { eapply single_flight_run; [|exact Hrun]. now left. }
  simpl in Hstep. destruct (tasks st !! i) as [[v|v]|] eqn:Hi; try done.
  injection Hstep as <-.
  destruct (single_flight_lookup _ _ _ Hsf Hi) as (_ & Hdel & Hact).
  apply (wedged_run in_range JSON_parse dirname "active" (runs (trace st)))
    in Hrun'.
  { destruct Hrun' as (? & ? & _ & ?). done. }
  unfold wedged. rewrite Hdel. simpl. split_and!; try done.
  - unfold active in Hact. unfold has_own.
    now destruct (get_own "active" (deploying st)).
  - rewrite runs_app. simpl. apply app_nil_r.
Qed.

Lemma first_own_head {V} (ps : props V) :
  Forall (λ e, array_index e.1 = None) ps → first_own ps = head ps.
Proof.
  intros Hall. unfold first_own.
  assert (Hl : least_index ps = None).
  { induction Hall as [|[k v] ps Hk _ IH]; simpl; [done|].
    simpl in Hk. now rewrite Hk, IH. }
  rewrite Hl. destruct Hall as [|[k v] ps Hk _]; simpl; [done|].
  simpl in Hk. now rewrite Hk.
Qed.

(** The callback of [run] hands the lock to the property of [queued]
    that [for ... in] reaches first. *)
Lemma run_done_takes_first d d' err st :
  orderly st → tasks st = [Running (VDeployer d)] →
  first_own (q_own (queued st)) = Some (name d', VDeployer d') →
  tasks (run_done (VDeployer d) err [] st) = [Pulling (VDeployer d')] ∧
  q_own (queued (run_done (VDeployer d) err [] st))
    = delete_own (name d') (q_own (queued st)) ∧
  active (run_done (VDeployer d) err [] st) = true.
Proof.
  intros (Hq & Hpr & [(Hd & Ht & Hown) | (n & Hn & Hd & Hts)]) Htask Hfirst.
  { rewrite Ht in Htask. done. }
  destruct Hts as [Hts | (d0 & Hname & [Hts|Hts])]; rewrite Hts in Htask;
    try done.
  injection Htask as <-.
  destruct (plain_name_facts _ Hn) as (_ & Hna & _ & _).
  destruct Hq as (Hproto & Hnd & Hall).
  apply first_own_elem in Hfirst as Hin.
  pose proof (proj1 (Forall_forall _ _) Hall _ Hin) as (d2 & Heq & Hp').
  injection Heq as _ <-.
  destruct (plain_name_facts _ Hp') as (Htr & _).
  unfold run_done.
  set (st1 := with_tasks [] _).
  assert (Hd1 : deploying st1 = [("active", false)]).
  { subst st1. simpl. rewrite Hd, Hname. simpl.
    rewrite (proj2 (String.eqb_neq n "active")) by (now apply String.eqb_neq).
    simpl. now rewrite String.eqb_refl. }
  unfold queue_first. change (queued st1) with (queued st).
  rewrite Hfirst, Htr. rewrite deploy_idle by done. done.
Qed.

(** X3.  With plain names none of which is an array index (a name the
    hook builds never is), the queue is served in the order in which the
    names were first queued: when a run reports, the deployer at the head
    of [queued] starts pulling and the others keep their order. *)
Theorem drain_takes_earliest_queued (evs : list event) (st : state)
    (d : deployer) (err : option string) (k : string) (v : value)
    (rest : props value) :
  Forall (λ ev, plain_event ev = true) evs →
  run_events initial evs = Some st →
  tasks st = [Running (VDeployer d)] →
  q_own (queued st) = (k, v) :: rest →
  Forall (λ e, array_index e.1 = None) (q_own (queued st)) →
  ∃ st',
    step st (RunCallback 0 err) = Some st' ∧
    tasks st' = [Pulling v] ∧ q_own (queued st') = rest ∧
    active st' = true.
Proof.
  intros Hevs Hrun Ht Hq Hnoidx.
  assert (Ho : orderly st).
  { eapply orderly_run; eauto using orderly_initial. }
  exists (run_done (VDeployer d) err [] st). simpl. rewrite Ht. simpl.
  split; [done|].
  pose proof Ho as ((_ & Hnd & Hall) & _).
  assert (Hfirst : first_own (q_own (queued st)) = Some (k, v)).
  { rewrite first_own_head by done. now rewrite Hq. }
  rewrite Hq in Hall, Hnd. apply Forall_cons in Hall as [(d' & Heq & _) _].
  injection Heq as -> ->.
  destruct (run_done_takes_first d d' err st Ho Ht Hfirst) as (H1 & H2 & H3).
  split_and!; try done.
  rewrite H2, Hq. simpl. rewrite String.eqb_refl.
  apply delete_own_absent. simpl in Hnd. now apply NoDup_cons in Hnd as [? _].
Qed.

(** X4.  With plain names, [deploying] marks at most one name besides
    [active]: it is [{active: false}] with nothing outstanding, or
    [{active: true, n: true}] where every outstanding callback belongs to
    a deployer named [n]. *)
Theorem one_name_marked (evs : list event) (st : state) :
  Forall (λ ev, plain_event ev = true) evs →
  run_events initial evs = Some st →
  (deploying st = [("active", false)] ∧ tasks st = []) ∨
  (∃ n, deploying st = [("active", true); (n, true)] ∧
        (length (tasks st) ≤ 1)%nat ∧
        ∀ t, t ∈ tasks st →
             ∃ d, name d = n ∧
                  (t = Pulling (VDeployer d) ∨ t = Running (VDeployer d))).
Proof.
  intros Hevs Hrun.
  assert (Ho : orderly st).
  { eapply orderly_run; eauto using orderly_initial. }
  destruct Ho as (_ & _ & [(Hd & Ht & _) | (n & _ & Hd & Hts)]).
  - now left.
  - right. exists n. split; [done|].
    destruct Hts as [-> | (d & Hname & [-> | ->])]; simpl.
    + split; [lia|]. intros t Ht. inversion Ht.
    + split; [lia|]. intros t Ht. apply list_elem_of_singleton in Ht as ->.
      exists d. auto.
    + split; [lia|]. intros t Ht. apply list_elem_of_singleton in Ht as ->.
      exists d. auto.
Qed.

(* ===================================================================== *)
(** ** Further properties of the push hook                                *)
(* ===================================================================== *)

Lemma split_app_sep sep a b :
  split sep (a +:+ String sep b) = split sep a ++ split sep b.
Proof.
  induction a as [|c a IH]; simpl.
  - now rewrite Ascii.eqb_refl.
  - destruct (Ascii.eqb c sep); [now rewrite IH|].
    rewrite IH. destruct (split sep a) as [|piece pieces] eqn:E; [|done].
    now apply split_nonempty in E.
Qed.

Lemma split_no_slash s : has_slash s = false → split "/"%char s = [s].
Proof.
  induction s as [|c s IH]; [done|].
  rewrite has_slash_cons. intros H. apply orb_false_iff in H as [Hc Hs].
  simpl. rewrite Ascii.eqb_sym, Hc. now rewrite IH.
Qed.

(** X9.  The segment used for the branch and the name is what follows the
    last slash of the ref: a ref that ends in a slash and a slash-free
    segment gives that segment, whatever precedes it, and a ref without a
    slash is taken whole. *)
Theorem slug_is_what_follows_the_last_slash (before seg : string) :
  has_slash seg = false →
  slug (before +:+ "/" +:+ seg) = seg ∧ slug seg = seg.
Proof.
  intros Hseg. unfold slug, slice_last. split.
  - change (before +:+ "/" +:+ seg) with (before +:+ String "/"%char seg).
    rewrite split_app_sep, (split_no_slash seg Hseg), last_snoc. done.
  - now rewrite (split_no_slash seg Hseg).
Qed.

Lemma has_dash_cons c s :
  has_dash (String c s) = Ascii.eqb "-"%char c || has_dash s.
Proof. reflexivity. Qed.

Lemma parse_digits_no_dash s : ∀ acc n,
  parse_digits acc s = Some n → has_dash s = false.
Proof.
  induction s as [|c s IH]; simpl; intros acc n; [done|].
  destruct (digit c) as [d|] eqn:Hd; [|done]. intros H.
  rewrite has_dash_cons, (IH _ _ H).
  destruct (Ascii.eqb_spec "-"%char c) as [<-|]; [|done].
  vm_compute in Hd. done.
Qed.

(** A name with a dash is not an array index. *)
Lemma dashed_not_index s : has_dash s = true → array_index s = None.
Proof.
  intros Hd. destruct (array_index s) as [n|] eqn:E; [|done].
  assert (Hp : ∃ m, parse_digits 0%N s = Some m).
  { destruct s as [|c s]; [done|].
    destruct (Ascii.eqb_spec c "0"%char) as [->|Hne].
    - destruct s as [|c' s]; [by eexists|]. simpl in E. done.
    - unfold array_index in E.
      assert (Hd' : match parse_decimal (String c s) with
                    | Some n0 => if (n0 <? 4294967295)%N then Some n0 else None
                    | None => None
                    end = Some n).
      { destruct c as [[] [] [] [] [] [] [] []]; try exact E; done. }
      unfold parse_decimal in Hd'.
      destruct (parse_digits 0%N (String c s)) as [m|]; [by eexists | done]. }
  destruct Hp as [m Hm]. apply parse_digits_no_dash in Hm. congruence.
Qed.

(** X10.  Whenever the handler builds a deployer, the payload of the
    request parsed, its [ref] is a string and the name of its repository
    converts to a string; the deployer's name is that repository name, a
    dash and the last segment of that ref; its branch is the same
    segment, which holds no slash; its [repository] is the repository
    name as the payload has it; its path is the sibling directory of
    that name; and the name is plain and not an array index, so
    [deploying] and [queued] treat it as an ordinary key. *)
Theorem hook_deployer_shape (ranges : list string) (req : request)
    (es : list effect) (d : deployer) :
  routeHookPush ranges req = (es, inr (Some d)) →
  ∃ pv ref piece,
    JSON_parse (default "undefined" (payload req)) = Some pv ∧
    member "ref" pv = JStr ref ∧
    join_piece (member "name" (member "repository" pv)) = Some piece ∧
    name d = piece +:+ "-" +:+ slug ref ∧
    branch d = JStr (slug ref) ∧ has_slash (slug ref) = false ∧
    repository d = member "name" (member "repository" pv) ∧
    path d = dirname +:+ "/../" +:+ name d ∧
    plain_name (name d) = true ∧ array_index (name d) = None.
Proof.
  unfold routeHookPush. destruct (range_loop _ _ _); [|done].
  pose proof (dispatch_push_spec JSON_parse dirname req) as H.
  destruct (JSON_parse _) as [pv|]; [|rewrite H; done].
  destruct (malformed pv); [rewrite H; done|].
  destruct H as (ref & piece & Href & Hpiece & ->). intros [= <- <-].
  destruct (slug_last_piece ref) as (x & Hx & Hslug & Hno).
  exists pv, ref, piece. simpl. rewrite Hx. simpl.
  assert (Hdash : has_dash (piece +:+ "-" +:+ slug ref) = true)
    by apply has_dash_app.
  rewrite Hslug in *. split_and!; try done.
  - now apply plain_of_dash.
  - now apply dashed_not_index.
Qed.

(** X5.  Whenever the handler returns, be it from the rejection or after
    dispatch, it has sent exactly one response, the empty one, as the
    last thing it did; the answer waits for no deployment. *)
Theorem handler_answers_once (ranges : list string) (req : request)
    (es : list effect) (r : option deployer) :
  routeHookPush ranges req = (es, inr r) →
  ∃ before,
    es = before ++ [Send ""] ∧
    Forall (λ e, ∀ body, e ≠ Send body) before ∧
    runs es = [] ∧ commands es = [].
Proof.
  unfold routeHookPush. destruct (range_loop _ _ _).
  - pose proof (dispatch_push_spec JSON_parse dirname req) as H.
    destruct (JSON_parse _) as [pv|]; [|rewrite H; done].
    destruct (malformed pv); [rewrite H; done|].
    destruct H as (ref & piece & _ & _ & ->). intros [= <- <-].
    eexists [_; _; _]. split; [reflexivity|].
    split; [|done]. repeat constructor; done.
  - intros [= <- <-]. eexists [_]. split; [reflexivity|].
    split; [|done]. repeat constructor; done.
Qed.

(** X8.  When the request carries a non-empty X-Forwarded-For header,
    the address of the connection plays no part: the handler does the
    same whatever [remoteAddress] is, and the address it checks is the
    header. *)
Theorem forwarded_header_overrides_address (ranges : list string)
    (h remote remote' : string) (p : option string) :
  truthy h = true →
  routeHookPush ranges (Request (Some h) remote p)
  = routeHookPush ranges (Request (Some h) remote' p) ∧
  source_ip (Request (Some h) remote p) = h.
Proof.
  intros Hh. unfold routeHookPush, source_ip. simpl. rewrite Hh. done.
Qed.

(** X6.  A push reaches [deploy] exactly when the [deploy.js] of its
    target exists: after the handler's turn and the callback of
    [fs.exists], the lock, the queue and the outstanding callbacks are
    those of the state before the push if the file is missing, and those
    [deploy] gives for the deployer the handler built if it is there. *)
Theorem push_deploys_iff_target_exists (st st1 st2 : state) (req : request)
    (found : bool) :
  step st (HookPush req) = Some st1 →
  step st1 (ExistsCallback (length (probes st)) found) = Some st2 →
  ∃ es d,
    routeHookPush (githubIpRanges st) req = (es, inr (Some d)) ∧
    same_control st2 (if found then deploy (VDeployer d) st else st).
Proof.
  rewrite step_hook. intros H1 H2.
  destruct (routeHookPush _ _) as [es [e|[d|]]]; injection H1 as <-.
  - simpl in H2. rewrite lookup_ge_None_2 in H2 by done. done.
  - exists es, d. split; [done|]. simpl in H2.
    rewrite list_lookup_middle in H2 by done.
    injection H2 as <-. rewrite delete_middle, app_nil_r.
    unfold exists_done.
    set (st' := with_probes (probes st) _).
    assert (Hs : same_control st' st) by (unfold same_control; done).
    destruct found; [now apply deploy_same_control | done].
  - simpl in H2. rewrite lookup_ge_None_2 in H2 by done. done.
Qed.

Lemma run_events_cons st ev evs :
  run_events st (ev :: evs)
  = match step st ev with
    | Some st' => run_events st' evs
    | None => None
    end.
Proof. reflexivity. Qed.

Lemma first_own_singleton {V} k (v : V) : first_own [(k, v)] = Some (k, v).
Proof. unfold first_own. simpl. now destruct (array_index k). Qed.

(** X7.  Two pushes for the same target while the server is idle: the
    first starts pulling, the second is queued under the target's name;
    when the first has pulled and its run reports (with an error or
    not), the second starts pulling by itself, with nothing left
    queued. *)
Theorem second_push_runs_after_first (evs : list event) (st : state)
    (req : request) (pv : jsval) (stdo : string) (err : option string) :
  Forall (λ ev, plain_event ev = true) evs →
  run_events initial evs = Some st →
  active st = false →
  range_loop in_range (source_ip req) (githubIpRanges st) = true →
  JSON_parse (default "undefined" (payload req)) = Some pv →
  malformed pv = false →
  ∃ d st',
    run_events st
      [HookPush req; ExistsCallback (length (probes st)) true;
       HookPush req; ExistsCallback (length (probes st)) true;
       PullCallback 0 None stdo; RunCallback 0 err] = Some st' ∧
    runs (trace st') = runs (trace st) ++ [VDeployer d] ∧
    tasks st' = [Pulling (VDeployer d)] ∧
    q_own (queued st') = [] ∧ active st' = true.
Proof.
  intros Hevs Hrun Hact Hadm Hparse Hwf.
  assert (Ho : orderly st).
  { eapply orderly_run; eauto using orderly_initial. }
  destruct Ho as ((Hproto & _) & Hpr & [(Hd & Ht & Hown) | (n & _ & Hd & _)]);
    [|unfold active in Hact; rewrite Hd in Hact; done].
  assert (Hq : queued st = Queue [] None).
  { destruct (queued st) as [own proto]. simpl in *. congruence. }
  pose proof (dispatch_push_spec JSON_parse dirname req) as Hhook.
  rewrite Hparse, Hwf in Hhook.
  destruct Hhook as (ref & piece & _ & _ & Hhook).
  match type of Hhook with _ = (?l, inr (Some ?x)) =>
    set (es := l) in *; set (d := x) in * end.
  assert (Hplain : plain_name (name d) = true).
  { apply plain_of_dash. apply has_dash_app. }
  assert (Hes : runs es = []) by done.
  clearbody d es.
  assert (Hroute : ∀ s, githubIpRanges s = githubIpRanges st →
            step s (HookPush req)
            = Some (with_probes (probes s ++ [d]) (emit es s))).
  { intros s Hs. rewrite step_hook, Hs. unfold routeHookPush.
    now rewrite Hadm, Hhook. }
  assert (Hexists : ∀ s, probes s = probes st →
            step (with_probes (probes s ++ [d]) (emit es s))
                 (ExistsCallback (length (probes st)) true)
            = Some (exists_done d true (probes st)
                      (with_probes (probes s ++ [d]) (emit es s)))).
  { intros s Hs. simpl. rewrite Hs.
    rewrite list_lookup_middle by done.
    now rewrite delete_middle, app_nil_r. }
  assert (Hpull : ∀ s v, tasks s = [Pulling v] →
            step s (PullCallback 0 None stdo)
            = Some (pull_done v None stdo [] s)).
  { intros s v Hs. simpl. now rewrite Hs. }
  assert (Hdone : ∀ s v, tasks s = [Running v] →
            step s (RunCallback 0 err) = Some (run_done v err [] s)).
  { intros s v Hs. simpl. now rewrite Hs. }
  exists d. eexists. split.
  { rewrite run_events_cons, (Hroute st eq_refl).
    rewrite run_events_cons, (Hexists st eq_refl).
    unfold exists_done at 1. rewrite deploy_idle by done.
    rewrite run_events_cons.
    match goal with |- context [step ?s (HookPush req)] =>
      rewrite (Hroute s eq_refl); rewrite run_events_cons;
      rewrite (Hexists s eq_refl) end.
    unfold exists_done at 1.
    rewrite deploy_queues by (rewrite orb_true_r; done).
    rewrite run_events_cons.
    match goal with |- context [step ?s (PullCallback 0 None stdo)] =>
      rewrite (Hpull s (VDeployer d)) by (simpl; now rewrite Ht) end.
    rewrite run_events_cons.
    match goal with |- context [step ?s (RunCallback 0 err)] =>
      rewrite (Hdone s (VDeployer d)) by done end.
    reflexivity. }
  match goal with |- context [run_done _ _ _ ?s] => set (s5 := s) end.
  destruct (plain_name_facts _ Hplain) as (_ & _ & Hnp & _).
  assert (Hq5 : queued s5 = Queue [(name d, VDeployer d)] None).
  { subst s5. simpl. rewrite Hq. unfold queue_set. now rewrite Hnp. }
  assert (Ht5 : tasks s5 = [Running (VDeployer d)]) by done.
  assert (Hr5 : runs (trace s5) = runs (trace st) ++ [VDeployer d]).
  { subst s5. simpl. rewrite !runs_app, Hes. simpl.
    now rewrite !app_nil_r. }
  assert (Ho5 : orderly s5).
  { unfold orderly. rewrite Hq5. split_and!.
    - split_and!; simpl; [done | apply NoDup_singleton |].
      repeat constructor. now exists d.
    - exact Hpr.
    - right. exists (name d). split_and!; try done.
      right. exists d. split; [done | now right]. }
  destruct (run_done_orderly d err s5 Ho5 Ht5) as (_ & Hruns & _).
  destruct (run_done_takes_first d d err s5 Ho5 Ht5) as (H1 & H2 & H3).
  { rewrite Hq5. apply first_own_singleton. }
  rewrite Hruns, Hr5, H1, H2, H3, Hq5. simpl. rewrite String.eqb_refl.
  done.
Qed.

(* ===================================================================== *)
(** ** The queue and the trace in every reachable state                   *)
(* ===================================================================== *)

(** X16.  Whatever the names submitted, [queued] never holds two own
    properties with the same key, and never one named [__proto__]. *)
Theorem queue_has_one_entry_per_name (evs : list event) (st : state) :
  run_events initial evs = Some st →
  NoDup (keys (q_own (queued st))) ∧ "__proto__" ∉ keys (q_own (queued st)).
Proof.
  intros Hrun.
  apply (keyed_once_run in_range JSON_parse dirname evs initial st);
    [|exact Hrun].
  split; [constructor | inversion 1].
Qed.

(** X17.  The drain step tests the key it found for truthiness: when the
    first property of [queued] is the one named by the empty string, the
    callback of [run] releases the lock, takes nothing from the queue and
    starts nothing. *)
Theorem empty_name_is_not_drained (v qv : value) (err : option string)
    (rest : list task) (st : state) :
  queue_first (queued st) = Some ("", qv) →
  queued (run_done v err rest st) = queued st ∧
  tasks (run_done v err rest st) = rest ∧
  active (run_done v err rest st) = false.
Proof.
  intros Hfirst. unfold run_done.
  set (st1 := with_tasks rest _).
  change (queued st1) with (queued st). rewrite Hfirst. simpl.
  split_and!; try done. unfold active. simpl. now rewrite get_set_own.
Qed.

Lemma runs_nil_no_run c v : runs c = [] → Run v ∉ c.
Proof.
  induction c as [|e c IH]; simpl; [inversion 2|].
  intros H Hin. apply elem_of_cons in Hin as [<-|Hin]; [done|].
  destruct e; simpl in H; try done; now apply IH.
Qed.

Lemma split_before_quiet_chunk es c before v after :
  runs c = [] → es ++ c = before ++ Run v :: after →
  ∃ after', es = before ++ Run v :: after'.
Proof.
  intros Hc. revert before.
  induction es as [|e es IH]; intros before Heq; simpl in Heq.
  - exfalso. apply (runs_nil_no_run c v Hc). rewrite Heq.
    apply elem_of_app. right. left.
  - destruct before as [|b before]; simpl in Heq.
    + injection Heq as -> <-. now exists es.
    + injection Heq as -> Heq. destruct (IH _ Heq) as [after' ->].
      now exists after'.
Qed.

Lemma split_before_run_chunk es f w before v after :
  es ++ [RequireFresh f; Init; Run w] = before ++ Run v :: after →
  (∃ after', es = before ++ Run v :: after') ∨
  (before = es ++ [RequireFresh f; Init] ∧ v = w).
Proof.
  revert before.
  induction es as [|e es IH]; intros before Heq; simpl in Heq.
  - right. destruct before as [|b1 [|b2 [|b3 before]]]; simpl in Heq;
      try discriminate.
    + now simplify_eq.
    + simplify_eq. now destruct before.
  - destruct before as [|b before]; simpl in Heq.
    + injection Heq as -> <-. left. now exists es.
    + injection Heq as -> Heq. destruct (IH _ Heq) as [[after' ->]|[-> ->]].
      * left. now exists after'.
      * right. done.
Qed.

Lemma loaded_before_run_quiet es c :
  runs c = [] → loaded_before_run es → loaded_before_run (es ++ c).
Proof.
  intros Hc Hes before v after Heq.
  destruct (split_before_quiet_chunk _ _ _ _ _ Hc Heq) as [after' ->].
  eapply Hes. reflexivity.
Qed.

Lemma loaded_before_run_chunk es w :
  loaded_before_run es →
  loaded_before_run
    (es ++ [RequireFresh (path_of w +:+ "/deploy.js"); Init; Run w]).
Proof.
  intros Hes before v after Heq.
  destruct (split_before_run_chunk _ _ _ _ _ _ Heq)
    as [[after' ->]|[-> ->]].
  - eapply Hes. reflexivity.
  - now exists es.
Qed.

Lemma deploy_trace v st :
  ∃ c, trace (deploy v st) = trace st ++ c ∧ runs c = [].
Proof.
  unfold deploy. destruct (has_property _ _ || _); simpl; eauto.
Qed.

Lemma loaded_before_run_step st ev st' :
  loaded_before_run (trace st) → step st ev = Some st' →
  loaded_before_run (trace st').
Proof.
  intros Hl Hstep. destruct ev as [req|hooks|d|i found|i err stdo|i err].
  - rewrite step_hook in Hstep.
    pose proof (routeHookPush_shape in_range JSON_parse dirname
                  (githubIpRanges st) req) as [Hr _].
    destruct (routeHookPush _ _) as [es [e|[d|]]]; injection Hstep as <-;
      simpl; now apply loaded_before_run_quiet.
  - injection Hstep as <-. exact Hl.
  - injection Hstep as <-.
    destruct (deploy_trace (VDeployer d) st) as (c & -> & Hc).
    now apply loaded_before_run_quiet.
  - simpl in Hstep. destruct (probes st !! i) as [d|]; [|done].
    injection Hstep as <-. unfold exists_done.
    set (st1 := with_probes _ _).
    assert (H1 : loaded_before_run (trace st1))
      by (now apply loaded_before_run_quiet).
    destruct found; [|done].
    destruct (deploy_trace (VDeployer d) st1) as (c & -> & Hc).
    now apply loaded_before_run_quiet.
  - simpl in Hstep. destruct (tasks st !! i) as [[v|v]|]; try done.
    injection Hstep as <-. destruct err as [e|]; simpl.
    + now apply loaded_before_run_quiet.
    + change (trace st ++ [Log Debug stdo; RequireFresh _; Init; Run v])
        with (trace st ++ [Log Debug stdo]
              ++ [RequireFresh (path_of v +:+ "/deploy.js"); Init; Run v]).
      rewrite app_assoc. apply loaded_before_run_chunk.
      now apply loaded_before_run_quiet.
  - simpl in Hstep. destruct (tasks st !! i) as [[v|v]|]; try done.
    injection Hstep as <-. unfold run_done.
    set (failed := match err with
                   | Some e => if truthy e then [_] else []
                   | None => []
                   end).
    assert (Hfailed : runs failed = []).
    { subst failed. destruct err as [e|]; [destruct (truthy e)|]; done. }
    set (st1 := with_tasks _ _).
    assert (H1 : loaded_before_run (trace st1)).
    { subst st1. simpl. apply loaded_before_run_quiet; [|done].
      rewrite runs_app, Hfailed. done. }
    destruct (queue_first (queued st1)) as [[k qv]|]; [|done].
    destruct (truthy k); [|done].
    set (st2 := with_queued _ _).
    assert (H2 : loaded_before_run (trace st2))
      by (now apply loaded_before_run_quiet).
    destruct (deploy_trace qv st2) as (c & -> & Hc).
    now apply loaded_before_run_quiet.
Qed.

(** X18.  In every trace the server produces, each call of a target's
    [run] comes right after the fresh load of that target's [deploy.js]
    and the call of its [init]: no deployment runs code loaded for an
    earlier one. *)
Theorem run_follows_fresh_load (evs : list event) (st : state)
    (before after : list effect) (v : value) :
  run_events initial evs = Some st →
  trace st = before ++ Run v :: after →
  ∃ before',
    before = before' ++ [RequireFresh (path_of v +:+ "/deploy.js"); Init].
Proof.
  intros Hrun.
  assert (Hl : loaded_before_run (trace st)); [|apply Hl].
  assert (Hgen : ∀ evs s s', loaded_before_run (trace s) →
            run_events s evs = Some s' → loaded_before_run (trace s')).
  { clear. induction evs as [|ev evs IH]; simpl; intros s s' Hs Hr.
    - now injection Hr as <-.
    - destruct (step s ev) as [s1|] eqn:Hstep; [|done].
      eapply IH; [|exact Hr]. eapply loaded_before_run_step; eauto. }
  eapply Hgen; [|exact Hrun].
  intros b w a Heq. now destruct b.
Qed.

(* ===================================================================== *)
(** ** Start-up                                                           *)
(* ===================================================================== *)

(** X13.  The reply of api.github.com/meta replaces the allow-list in one
    case only: the request reported no error and the body parses to an
    object with an own [hooks] member, which becomes the allow-list as it
    is.  When the request reports an error the body is not even parsed:
    the callback logs and the list in place stays. *)
Theorem allow_list_replaced_iff (error : option string) (body : string)
    (hooks : jsval) :
  (meta_callback JSON_parse error body = MetaReplaces hooks ↔
   error = None ∧
   ∃ ms, JSON_parse body = Some (JObj ms) ∧ get_own "hooks" ms = Some hooks)
  ∧
  (∀ e, meta_callback JSON_parse (Some e) body
        = MetaKeeps [Log Error ("Error retrieving github meta: " +:+ e)]).
Proof.
  split; [|done]. unfold meta_callback. split.
  - destruct error as [e|]; [done|].
    destruct (JSON_parse body) as [pv|]; [|done].
    destruct (js_truthy pv); [|done].
    destruct pv as [| |b|n|s|l|ms]; try done.
    unfold has_property, has_own. simpl.
    destruct (get_own "hooks" ms) as [h|] eqn:E; [|done].
    intros [= <-]. split; [done|]. now exists ms.
  - intros (-> & ms & -> & Hh). simpl.
    unfold has_property, has_own. now rewrite Hh.
Qed.
End Beyond.

Lemma string_app_nil_r s : s +:+ "" = s.
Proof.
  induction s as [|c s IH]; [done|].
  change (String c (s +:+ "") = String c s). now rewrite IH.
Qed.

Lemma strip_space_app a b :
  strip_space (a +:+ b) = strip_space a +:+ strip_space b.
Proof.
  induction a as [|c a IH]; simpl; [done|].
  destruct (is_space c); simpl; now rewrite IH.
Qed.

Lemma strip_space_no_space s : no_space (strip_space s) = true.
Proof.
  induction s as [|c s IH]; simpl; [done|].
  destruct (is_space c) eqn:E; [done|].
  unfold no_space in *. simpl. now rewrite E, IH.
Qed.

Lemma strip_space_id s : no_space s = true → strip_space s = s.
Proof.
  unfold no_space. induction s as [|c s IH]; simpl; [done|].
  intros H. apply andb_true_iff in H as [Hc Hs].
  apply negb_true_iff in Hc. now rewrite Hc, IH.
Qed.

Lemma strip_space_all_space s : all_space s = true → strip_space s = "".
Proof.
  unfold all_space. induction s as [|c s IH]; simpl; [done|].
  intros H. apply andb_true_iff in H as [Hc Hs]. now rewrite Hc, IH.
Qed.

(** X11.  When the branch query of a target succeeds, the branch handed
    to its [schedule] holds no white space; it is the output of git when
    that is a word followed by white space (the newline git prints), and
    the empty string when the output is all white space.  When the query
    fails, [schedule] is not called. *)
Theorem scheduled_branch_is_trimmed (path : string) (err : option string)
    (stdo : string) (es : list effect) (b : string) :
  branch_callback path err stdo = (es, Some b) →
  err = None ∧ no_space b = true ∧
  (∀ word blank, stdo = word +:+ blank → no_space word = true →
                 all_space blank = true → b = word) ∧
  (∀ e, branch_callback path (Some e) stdo = ([], None)).
Proof.
  unfold branch_callback. destruct err as [e|]; [done|].
  intros [= <- <-]. split_and!; try done.
  - apply strip_space_no_space.
  - intros word blank -> Hw Hb.
    rewrite strip_space_app, (strip_space_id _ Hw),
      (strip_space_all_space _ Hb).
    apply string_app_nil_r.
Qed.

Lemma string_app_inv_tail a b c : a +:+ c = b +:+ c → a = b.
Proof.
  intros H.
  assert (Hl : list_ascii_of_string a ++ list_ascii_of_string c
               = list_ascii_of_string b ++ list_ascii_of_string c).
  { assert (Happ : ∀ x y, list_ascii_of_string (x +:+ y)
              = list_ascii_of_string x ++ list_ascii_of_string y).
    { intros x y. induction x as [|ch x IH]; simpl; [done | now rewrite IH]. }
    now rewrite <- !Happ, H. }
  apply app_inv_tail in Hl.
  rewrite <- (string_of_list_ascii_of_string a),
    <- (string_of_list_ascii_of_string b). now rewrite Hl.
Qed.

Section Startup.
Variable existsSync : string → bool.
Variable requireFresh : string → loaded.
Variable dirname : string.

Abbreviation bind := (bindSchedulers existsSync requireFresh dirname).
Abbreviation eligible := (schedulable existsSync requireFresh dirname).
Abbreviation dir := (target_path dirname).

Lemma target_file_inj f f' :
  dir f +:+ "/deploy.js" = dir f' +:+ "/deploy.js" → f = f'.
Proof.
  intros H. apply string_app_inv_tail in H. unfold target_path in H.
  now do 2 apply String.app_inj in H.
Qed.

(** What is loaded and what is queried comes from the listing. *)
Lemma bindSchedulers_sound files :
  (∀ p, p ∈ loads (bind files).1 →
        ∃ f, f ∈ files ∧ hidden f = false ∧ existsSync p = true ∧
             p = dir f +:+ "/deploy.js") ∧
  (∀ c, c ∈ commands (bind files).1 →
        ∃ f, f ∈ files ∧ eligible f = true ∧
             c = branch_command (dir f)).
Proof.
  induction files as [|file rest [IH1 IH2]]; simpl.
  { split; intros ? H; inversion H. }
  assert (Hrest1 : ∀ p, p ∈ loads (bind rest).1 →
            ∃ f, f ∈ file :: rest ∧ hidden f = false ∧ existsSync p = true ∧
                 p = dir f +:+ "/deploy.js").
  { intros p Hp. destruct (IH1 p Hp) as (f & ? & ?). exists f.
    split; [now right | done]. }
  assert (Hrest2 : ∀ c, c ∈ commands (bind rest).1 →
            ∃ f, f ∈ file :: rest ∧ eligible f = true ∧
                 c = branch_command (dir f)).
  { intros c Hc. destruct (IH2 c Hc) as (f & ? & ?). exists f.
    split; [now right | done]. }
  destruct (hidden file) eqn:Hh; [done|].
  destruct (existsSync (dir file +:+ "/deploy.js")) eqn:He;
    simpl; [|done].
  assert (Hhere : ∀ p, p = dir file +:+ "/deploy.js" →
            ∃ f, f ∈ file :: rest ∧ hidden f = false ∧ existsSync p = true ∧
                 p = dir f +:+ "/deploy.js").
  { intros p ->. exists file. split; [left | done]. }
  destruct (requireFresh (dir file +:+ "/deploy.js")) as [| |[]|] eqn:Hl.
  - split; simpl.
    + intros p Hp. apply list_elem_of_singleton in Hp. auto.
    + intros c Hc. inversion Hc.
  - split; simpl.
    + intros p Hp. apply list_elem_of_singleton in Hp. auto.
    + intros c Hc. inversion Hc.
  - destruct (bind rest) as [es ended]. simpl in *. split.
    + intros p Hp. apply elem_of_cons in Hp as [->|Hp]; auto.
    + intros c Hc. apply elem_of_cons in Hc as [->|Hc]; auto.
      exists file. split; [left|]. split; [|done].
      unfold schedulable. now rewrite Hh, He, Hl.
  - destruct (bind rest) as [es ended]. simpl in *. split; [|done].
    intros p Hp. apply elem_of_cons in Hp as [->|Hp]; auto.
  - split; simpl.
    + intros p Hp. apply list_elem_of_singleton in Hp. auto.
    + intros c Hc. inversion Hc.
Qed.

Lemma branch_command_inj p p' :
  branch_command p = branch_command p' → p = p'.
Proof.
  unfold branch_command. intros H.
  do 2 apply String.app_inj in H. now apply string_app_inv_tail in H.
Qed.

(** X12.  [bindSchedulers] leaves alone every directory entry whose name
    starts with a dot and every entry without a [deploy.js]: it neither
    loads their [deploy.js] nor queries their branch, whatever else the
    listing holds. *)
Theorem hidden_or_missing_is_skipped (files : list string) (file : string) :
  (hidden file = true ∨ existsSync (dir file +:+ "/deploy.js") = false) →
  ((dir file +:+ "/deploy.js") ∉ loads (fst (bind files))) ∧
  (branch_command (dir file) ∉ commands (fst (bind files))).
Proof.
  intros Hskip. destruct (bindSchedulers_sound files) as [H1 H2]. split.
  - intros Hin. destruct (H1 _ Hin) as (f & _ & Hh & He & Heq).
    apply target_file_inj in Heq as <-.
    destruct Hskip as [?|?]; congruence.
  - intros Hin. destruct (H2 _ Hin) as (f & _ & Hel & Heq).
    apply branch_command_inj in Heq. unfold target_path in Heq.
    do 2 apply String.app_inj in Heq. subst f.
    unfold schedulable in Hel.
    destruct Hskip as [Hh|He].
    + now rewrite Hh in Hel.
    + fold (dir file) in Hel. rewrite He in Hel.
      now rewrite andb_false_r in Hel.
Qed.

(** X14.  When every [deploy.js] that is loaded gives an object, and the
    [init] of those that have [schedule] returns, the loop reaches the
    end of the listing and the branch queries it starts are those of the
    entries that are not hidden, have a [deploy.js] and export
    [schedule], one each, in the order of the listing. *)
Theorem schedulers_follow_the_listing (files : list string) :
  (∀ f, f ∈ files → hidden f = false →
        existsSync (dir f +:+ "/deploy.js") = true →
        ∃ schedule, requireFresh (dir f +:+ "/deploy.js") = Exports schedule) →
  (bind files).2 = true ∧
  commands (bind files).1
    = map (λ f, branch_command (dir f)) (List.filter eligible files).
Proof.
  induction files as [|file rest IH]; intros Hok; [done|].
  destruct IH as [IHe IHc].
  { intros f Hf. apply Hok. now right. }
  specialize (Hok file ltac:(left)). simpl. unfold schedulable.
  destruct (hidden file); [done|]. simpl.
  fold (dir file).
  destruct (existsSync (dir file +:+ "/deploy.js")); simpl; [|done].
  destruct (Hok eq_refl eq_refl) as [[] ->].
  - destruct (bind rest) as [es ended]. simpl in *. now rewrite IHc.
  - destruct (bind rest) as [es ended]. simpl in *. done.
Qed.

(** X15.  A [deploy.js] that throws while it is loaded ends the loop:
    the entries listed after it are not looked at, so what
    [bindSchedulers] does is the same whatever follows, and the loop does
    not reach its end. *)
Theorem broken_target_ends_binding (before after : list string)
    (file : string) :
  hidden file = false →
  existsSync (dir file +:+ "/deploy.js") = true →
  requireFresh (dir file +:+ "/deploy.js") = LoadThrows →
  bind (before ++ file :: after) = bind (before ++ [file]) ∧
  (bind (before ++ file :: after)).2 = false.
Proof.
  intros Hh He Hl.
  induction before as [|f before [IH1 IH2]]; simpl.
  - fold (dir file). now rewrite Hh, He, Hl.
  - rewrite IH1. split; [done|]. rewrite <- IH1.
    destruct (hidden f); [done|].
    destruct (negb _); [done|].
    destruct (bind (before ++ file :: after)) as [es ended].
    simpl in IH2. subst ended.
    now destruct (requireFresh (dir f +:+ "/deploy.js")) as [| |[]|].
Qed.
End Startup.

(* ===================================================================== *)
(** ** The further properties at sample inputs                            *)
(* ===================================================================== *)

(** [app-main] pulls, [lib-dev] waits, the pull fails, [web-main] comes. *)
Lemma any_failed_pull_wedges_sample :
  ∃ st st1 st',
    sample_run initial
      [Scheduled (target "app-main"); Scheduled (target "lib-dev")]
      = Some st ∧
    sample_step st (PullCallback 0 (Some "exit 1") "") = Some st1 ∧
    sample_run st1 [Scheduled (target "web-main")] = Some st' ∧
    active st' = true ∧ tasks st' = [] ∧ runs (trace st') = [].
Proof.
  eexists _, _, _. split; [evaluate|]. split; [evaluate|].
  split; [evaluate|].
  assert (H := any_failed_pull_wedges cidr_in_range parses_nothing
           "/srv/deploy"
           [Scheduled (target "app-main"); Scheduled (target "lib-dev")]
           [Scheduled (target "web-main")] _ _ _ 0 "exit 1" ""
           ltac:(evaluate) ltac:(evaluate) ltac:(evaluate)).
  destruct H as (Ha & Ht & Hr).
  split_and!; [exact Ha | exact Ht | rewrite Hr; evaluate].
Defined.

(** [lib-dev] was queued before [web-main] and is served first. *)
Lemma drain_takes_earliest_queued_sample :
  ∃ st st',
    sample_run initial
      [Scheduled (target "app-main"); PullCallback 0 None "";
       Scheduled (target "lib-dev"); Scheduled (target "web-main");
       Scheduled (target "lib-dev")] = Some st ∧
    sample_step st (RunCallback 0 None) = Some st' ∧
    tasks st' = [Pulling (VDeployer (target "lib-dev"))] ∧
    keys (q_own (queued st')) = ["web-main"].
Proof.
  eexists.
  assert (H := drain_takes_earliest_queued cidr_in_range parses_nothing
           "/srv/deploy"
           [Scheduled (target "app-main"); PullCallback 0 None "";
            Scheduled (target "lib-dev"); Scheduled (target "web-main");
            Scheduled (target "lib-dev")]
           _ (target "app-main") None "lib-dev"
           (VDeployer (target "lib-dev"))
           [("web-main", VDeployer (target "web-main"))]
           ltac:(repeat constructor) ltac:(evaluate) ltac:(evaluate)
           ltac:(evaluate) ltac:(repeat constructor)).
  destruct H as (st' & Hstep & Ht & Hq & _).
  exists st'. split_and!; try done; try evaluate.
  now rewrite Hq.
Defined.

Lemma one_name_marked_sample :
  ∃ st,
    sample_run initial
      [Scheduled (target "app-main"); Scheduled (target "lib-dev")]
      = Some st ∧
    keys (deploying st) = ["active"; "app-main"].
Proof.
  eexists. split; [evaluate|].
  assert (H := one_name_marked cidr_in_range parses_nothing "/srv/deploy"
           [Scheduled (target "app-main"); Scheduled (target "lib-dev")] _
           ltac:(repeat constructor) ltac:(evaluate)).
  destruct H as [(Hd & _) | (n & Hd & _)]; evaluate.
Defined.

Lemma handler_answers_once_sample :
  ∃ before,
    (sample_hook ["10.0.0.0/8"] (push_from "10.1.2.3")).1
    = before ++ [Send ""] ∧
    Forall (λ e, ∀ body, e ≠ Send body) before.
Proof.
  assert (H := handler_answers_once cidr_in_range parses_to_push
           "/srv/deploy" ["10.0.0.0/8"] (push_from "10.1.2.3") _ _
           ltac:(evaluate)).
  destruct H as (before & Heq & Hall & _).
  exists before. split; [exact Heq | exact Hall].
Defined.

Lemma forwarded_header_overrides_address_sample :
  sample_hook ["10.0.0.0/8"]
    (Request (Some "10.1.2.3") "203.0.113.5" (Some "payload"))
  = sample_hook ["10.0.0.0/8"]
      (Request (Some "10.1.2.3") "10.9.9.9" (Some "payload")).
Proof.
  apply (forwarded_header_overrides_address cidr_in_range parses_to_push
           "/srv/deploy" ["10.0.0.0/8"] "10.1.2.3" "203.0.113.5" "10.9.9.9"
           (Some "payload")).
  evaluate.
Defined.

Lemma push_deploys_iff_target_exists_sample :
  ∃ st1 st2 es d,
    step cidr_in_range parses_to_push "/srv/deploy"
      (with_ranges ["10.0.0.0/8"] initial) (HookPush (push_from "10.1.2.3"))
      = Some st1 ∧
    step cidr_in_range parses_to_push "/srv/deploy" st1
      (ExistsCallback 0 false) = Some st2 ∧
    sample_hook ["10.0.0.0/8"] (push_from "10.1.2.3")
      = (es, inr (Some d)) ∧
    same_control st2 (with_ranges ["10.0.0.0/8"] initial).
Proof.
  eexists _, _.
  assert (H := push_deploys_iff_target_exists cidr_in_range parses_to_push
           "/srv/deploy" (with_ranges ["10.0.0.0/8"] initial) _ _
           (push_from "10.1.2.3") false
           ltac:(evaluate) ltac:(evaluate)).
  destruct H as (es & d & Heq & Hsame).
  exists es, d. split_and!; try evaluate; [exact Heq | exact Hsame].
Defined.

Lemma second_push_runs_after_first_sample :
  ∃ d st',
    run_events cidr_in_range parses_to_push "/srv/deploy"
      (with_ranges ["10.0.0.0/8"] initial)
      [HookPush (push_from "10.1.2.3"); ExistsCallback 0 true;
       HookPush (push_from "10.1.2.3"); ExistsCallback 0 true;
       PullCallback 0 None "ok"; RunCallback 0 (Some "failed")] = Some st' ∧
    runs (trace st') = [VDeployer d] ∧
    tasks st' = [Pulling (VDeployer d)] ∧ q_own (queued st') = [].
Proof.
  assert (H := second_push_runs_after_first cidr_in_range parses_to_push
           "/srv/deploy" [MetaHooks ["10.0.0.0/8"]]
           (with_ranges ["10.0.0.0/8"] initial)
           (push_from "10.1.2.3") push_payload "ok" (Some "failed")
           ltac:(repeat constructor) ltac:(evaluate) ltac:(evaluate)
           ltac:(evaluate) ltac:(evaluate) ltac:(evaluate)).
  destruct H as (d & st' & Hrun & Hr & Ht & Hq & _).
  exists d, st'. split_and!; [exact Hrun | exact Hr | exact Ht | exact Hq].
Defined.

Lemma slug_is_what_follows_the_last_slash_sample :
  slug "refs/heads/feature/x" = "x" ∧ slug "refs/tags/x" = "x".
Proof.
  split.
  - apply (slug_is_what_follows_the_last_slash "refs/heads/feature" "x").
    evaluate.
  - apply (slug_is_what_follows_the_last_slash "refs/tags" "x"). evaluate.
Defined.

Lemma hook_deployer_shape_sample :
  ∃ es d,
    sample_hook ["10.0.0.0/8"] (push_from "10.1.2.3") = (es, inr (Some d)) ∧
    name d = "app-x" ∧ branch d = JStr "x" ∧
    path d = "/srv/deploy/../" +:+ name d ∧ plain_name (name d) = true.
Proof.
  eexists _, _. split; [evaluate|].
  assert (H := hook_deployer_shape cidr_in_range parses_to_push
           "/srv/deploy" ["10.0.0.0/8"] (push_from "10.1.2.3") _ _
           ltac:(evaluate)).
  destruct H as (pv & ref & piece & Hpv & Href & Hpiece & Hn & Hb & _ & _
                 & Hp & Hplain & _).
  injection Hpv as <-.
  vm_compute in Href. injection Href as <-.
  vm_compute in Hpiece. injection Hpiece as <-.
  split_and!; [exact Hn | exact Hb | exact Hp | exact Hplain].
Defined.

Lemma scheduled_branch_is_trimmed_sample :
  branch_callback "/srv/deploy/../app-main" None
    (String "m" (String "a" (String "i" (String "n"
       (String "010" EmptyString)))))
  = ([Log Debug "Running scheduler for /srv/deploy/../app-main"],
     Some (strip_space (String "m" (String "a" (String "i" (String "n"
             (String "010" EmptyString))))))) ∧
  strip_space (String "m" (String "a" (String "i" (String "n"
    (String "010" EmptyString))))) = "main".
Proof.
  split; [reflexivity|].
  assert (H := scheduled_branch_is_trimmed "/srv/deploy/../app-main" None
           (String "m" (String "a" (String "i" (String "n"
              (String "010" EmptyString))))) _ _ eq_refl).
  destruct H as (_ & _ & Hword & _).
  apply (Hword "main" (String "010" EmptyString)); evaluate.
Defined.

Lemma hidden_or_missing_is_skipped_sample :
  "/srv/deploy/../.git/deploy.js"
    ∉ loads (fst (bindSchedulers sample_exists sample_load "/srv/deploy"
                    [".git"; "app-main"; "lib-dev"; "notes"])).
Proof.
  apply (hidden_or_missing_is_skipped sample_exists sample_load "/srv/deploy"
           [".git"; "app-main"; "lib-dev"; "notes"] ".git").
  left. evaluate.
Defined.

Lemma schedulers_follow_the_listing_sample :
  commands (bindSchedulers sample_exists sample_load "/srv/deploy"
              [".git"; "app-main"; "lib-dev"; "notes"]).1
  = [branch_command "/srv/deploy/../app-main"].
Proof.
  assert (H := schedulers_follow_the_listing sample_exists sample_load
           "/srv/deploy" [".git"; "app-main"; "lib-dev"; "notes"]).
  destruct H as [_ Hc]; [|rewrite Hc; evaluate].
  intros f _ _ _. unfold sample_load. eauto.
Defined.

Lemma broken_target_ends_binding_sample :
  bindSchedulers sample_exists broken_load "/srv/deploy"
    ["lib-dev"; "app-main"]
  = bindSchedulers sample_exists broken_load "/srv/deploy" ["lib-dev"].
Proof.
  apply (broken_target_ends_binding sample_exists broken_load "/srv/deploy"
           [] ["app-main"] "lib-dev"); evaluate.
Defined.

Lemma queue_has_one_entry_per_name_sample :
  ∃ st,
    sample_run initial
      [Scheduled (target "app-main"); Scheduled (target "lib-dev");
       Scheduled (target "__proto__"); Scheduled (target "lib-dev")]
      = Some st ∧
    NoDup (keys (q_own (queued st))).
Proof.
  eexists. split; [evaluate|].
  apply (queue_has_one_entry_per_name cidr_in_range parses_nothing
           "/srv/deploy"
           [Scheduled (target "app-main"); Scheduled (target "lib-dev");
            Scheduled (target "__proto__"); Scheduled (target "lib-dev")]).
  evaluate.
Defined.

(** A request with an empty name is queued ahead of [lib-dev]. *)
Lemma empty_name_is_not_drained_sample :
  ∃ st,
    sample_run initial
      [Scheduled (target "app-main"); Scheduled (target "");
       Scheduled (target "lib-dev"); PullCallback 0 None ""] = Some st ∧
    keys (q_own (queued (run_done (VDeployer (target "app-main")) None []
                           st))) = [""; "lib-dev"] ∧
    tasks (run_done (VDeployer (target "app-main")) None [] st) = [].
Proof.
  eexists. split; [evaluate|].
  match goal with |- context [run_done _ _ _ ?s] =>
    destruct (empty_name_is_not_drained (VDeployer (target "app-main"))
                (VDeployer (target "")) None [] s) as (Hq & Ht & _);
      [evaluate|]
  end.
  split; [rewrite Hq; evaluate | exact Ht].
Defined.

Lemma run_follows_fresh_load_sample :
  ∃ st before',
    sample_run initial
      [Scheduled (target "app-main"); PullCallback 0 None "ok"] = Some st ∧
    [Log Info "Deploying app-main";
     Exec (pull_command (VDeployer (target "app-main")));
     Log Debug "ok"; RequireFresh "/srv/app-main/deploy.js"; Init]
    = before' ++ [RequireFresh "/srv/app-main/deploy.js"; Init].
Proof.
  eexists.
  assert (H := run_follows_fresh_load cidr_in_range parses_nothing
           "/srv/deploy"
           [Scheduled (target "app-main"); PullCallback 0 None "ok"] _
           [Log Info "Deploying app-main";
            Exec (pull_command (VDeployer (target "app-main")));
            Log Debug "ok"; RequireFresh "/srv/app-main/deploy.js"; Init]
           [] (VDeployer (target "app-main"))
           ltac:(evaluate) ltac:(evaluate)).
  destruct H as (before' & Heq).
  exists before'. split; [evaluate | exact Heq].
Defined.
